(** * squid-monitor: the health ledger, the alert policy and the dispatcher

    A shallow embedding of [src/squid_monitor.py]: [StateManager]
    ([__init__], [_load_state], [save_state], [should_send_alert],
    [update_state]), [ServiceMonitor] ([check_service_status],
    [send_email_alert], [send_webhook_alert], [run_check]), the two operating
    modes of [main], and of [Config] the merge of the configuration file and
    the validation.

    Python objects are modelled as the code has them: the ledger is the
    [dict] that [json.load] returns and [json.dump] writes, timestamps are the
    [str] values of [datetime.isoformat], and every method is a computation
    over an explicit [world] that may raise a Python exception.

    What lies outside the interpreter is read from the world: the clock, the
    outcome of each SMTP session, of each [systemctl] call and of each
    webhook POST, the text of the state file and what the file system does
    with its path. The libraries are taken with the behaviour the program
    meets: [json] through the one law that [json.load] reads back what
    [json.dump] wrote, [datetime] through the law that [fromisoformat] reads
    back [isoformat], [timedelta] and [time.sleep] with the ranges outside
    of which they raise. Integers are unbounded, as in Python. The
    operator's interrupt ([KeyboardInterrupt], which is no [Exception]) is
    not modelled, and neither are failures of a [Logger] once it is built. *)

From Stdlib Require Import ZArith Ascii String List Bool Lia.
From Stdlib Require Import PrimFloat Uint63.
From Stdlib Require DecimalString DecimalZ.
Import ListNotations.

Local Open Scope string_scope.
Local Open Scope list_scope.
Local Open Scope Z_scope.

Set Warnings "-register-all".

(** ** Python values *)

(** What [json.load] can return, and what the ledger holds. A JSON object is
    a Python [dict]: its keys are kept in insertion order, as [json.dump]
    writes them. *)
Inductive json : Type :=
| JNull
| JBool (b : bool)
| JInt (n : Z)
| JFloat (f : float)
| JStr (s : string)
| JList (l : list json)
| JObj (kvs : list (string * json)).

(** The exceptions of the model; all of them are subclasses of Python's
    [Exception], so [except Exception] catches each one. *)
Inductive exn : Type :=
| KeyError (key : string)
| TypeError
| ValueError
| OSError
| SMTPException
| OverflowError
| AttributeError.

Inductive result (A : Type) : Type :=
| Ok (a : A)
| Raise (e : exn).
Arguments Ok {A} a.
Arguments Raise {A} e.

(** [d[k]] on a dict. *)
Fixpoint dict_get (k : string) (kvs : list (string * json)) : option json :=
  match kvs with
  | [] => None
  | (k', v) :: rest => if String.eqb k k' then Some v else dict_get k rest
  end.

(** [d[k] = v] on a dict: an existing key keeps its place, a new key is
    appended. *)
Fixpoint dict_set (k : string) (v : json) (kvs : list (string * json))
  : list (string * json) :=
  match kvs with
  | [] => [(k, v)]
  | (k', v') :: rest =>
      if String.eqb k k' then (k', v) :: rest else (k', v') :: dict_set k v rest
  end.

(** [obj[k]] for a [str] key [k]: only a dict can be subscripted by one. *)
Definition getitem (obj : json) (k : string) : result json :=
  match obj with
  | JObj kvs =>
      match dict_get k kvs with
      | Some v => Ok v
      | None => Raise (KeyError k)
      end
  | _ => Raise TypeError
  end.

(** [obj[k] = v] for a [str] key [k]. *)
Definition setitem (obj : json) (k : string) (v : json) : result json :=
  match obj with
  | JObj kvs => Ok (JObj (dict_set k v kvs))
  | _ => Raise TypeError
  end.

(** Truth value of an object, as [if x:] tests it. *)
Definition truthy (v : json) : bool :=
  match v with
  | JNull => false
  | JBool b => b
  | JInt n => negb (n =? 0)
  | JFloat f => negb (PrimFloat.eqb f 0%float)
  | JStr s => negb (String.eqb s "")
  | JList l => match l with [] => false | _ => true end
  | JObj kvs => match kvs with [] => false | _ => true end
  end.

(** [x is False], [x is True], [x is None]: identity with the singletons. *)
Definition is_False (v : json) : bool :=
  match v with JBool false => true | _ => false end.
Definition is_True (v : json) : bool :=
  match v with JBool true => true | _ => false end.
Definition is_None (v : json) : bool :=
  match v with JNull => true | _ => false end.

(** [x + 1], the right-hand side of [x += 1]. *)
Definition add_one (v : json) : result json :=
  match v with
  | JInt n => Ok (JInt (n + 1))
  | JBool b => Ok (JInt ((if b then 1 else 0) + 1))
  | JFloat f => Ok (JFloat (f + 1)%float)
  | _ => Raise TypeError
  end.

(** No [float] anywhere in the value. *)
Fixpoint float_free (v : json) : bool :=
  match v with
  | JFloat _ => false
  | JList l => forallb float_free l
  | JObj kvs => forallb (fun kv => float_free (snd kv)) kvs
  | _ => true
  end.

(** ** The [json] library

    The text that [json.dump] writes for an object and what [json.load]
    makes of a text: the object, or [None] for a [JSONDecodeError]. The model
    takes the two functions with the one fact the program relies on:
    [json.load] reads back what [json.dump] wrote. (The fact holds of
    floats too; the program stores none, and the law leaves them out.) *)
Class JsonText : Type := {
  dumps : json -> string;
  loads : string -> option json;
  loads_dumps : forall d, float_free d = true -> loads (dumps d) = Some d
}.

(** ** The [datetime] library

    Naive datetimes are instants counted in microseconds. The text format is
    the library's: the model takes [isoformat] and [fromisoformat] with the
    two facts the program relies on. *)
Inductive iso_parse : Type :=
| IsoNaive (t : Z)   (* a naive datetime *)
| IsoAware           (* a datetime with a UTC offset *)
| IsoInvalid.        (* ValueError *)

Class DateTime : Type := {
  isoformat : Z -> string;
  fromisoformat : string -> iso_parse;
  fromisoformat_isoformat : forall t, fromisoformat (isoformat t) = IsoNaive t;
  isoformat_nonempty : forall t, isoformat t <> ""
}.

(** The length of [timedelta(seconds=n)] in microseconds, where there is
    such a [timedelta]. *)
Definition timedelta_seconds (n : Z) : Z := n * 1000000.

(** A [timedelta] holds between -999999999 and 999999999 days:
    [timedelta(seconds=n)] raises [OverflowError] when [n // 86400] is
    outside, that is unless [-86399999913600 <= n < 86400000000000]. *)
Definition timedelta_in_range (n : Z) : bool :=
  (-999999999 <=? n / 86400) && (n / 86400 <=? 999999999).

Arguments timedelta_in_range : simpl never.

(** [timedelta(seconds=n)]. *)
Definition timedelta (n : Z) : result Z :=
  if timedelta_in_range n then Ok (timedelta_seconds n)
  else Raise OverflowError.

(** ** [time.sleep]

    The longest sleep that [time.sleep] converts to its clock is
    9223372036 seconds (an [int64] of nanoseconds); beyond it, in either
    direction, the call raises [OverflowError] before it looks at the sign.
    What the operating system accepts is less: on Linux the deadline, the
    length added to the time the host has been up, must stay within the same
    range, or the call raises [OSError] (EINVAL). [sleep_limit] is the longest
    length the host accepts; it is taken to be a minute at least, which
    holds of every host that has been up for less than 292 years. *)
Definition sleep_max : Z := 9223372036.

Class Platform : Type := {
  sleep_limit : Z;
  sleep_limit_range : 60 <= sleep_limit <= sleep_max
}.

(** ** The world outside the interpreter *)

(** The state file: a text, or what a write that failed half-way left of
    one, which [json.load] cannot read. [None] in [state_file] is a path that
    does not exist. *)
Inductive content : Type :=
| Garbage
| Document (text : string).

(** What the file system does with the path of the state file. *)
Inductive medium : Type :=
| Writable
| ReadOnly      (* open(path, 'w') fails: permission denied, read-only
                   file system *)
| DiskFull      (* open(path, 'w') truncates the file, the write fails *)
| NoAccess      (* the directory is there but may not be searched: stat and
                   every open fail with PermissionError *)
| NoDirectory.  (* the directory is not there and cannot be made: mkdir
                   fails, stat finds nothing, every open fails *)

(** What [subprocess.run(['systemctl', 'is-active', name], timeout=10)] does;
    [stdout] is the output after [strip()]. *)
Inductive probe : Type :=
| Exited (returncode : Z) (stdout : string)
| TimeoutExpired
| ProbeError (detail : string).

Inductive level : Type := DEBUG | INFO | WARNING | ERROR.

(** The log lines of the program, by their format string and its arguments. *)
Inductive message : Type :=
| MsgStartingCheck (service : string)
| MsgServiceStatus (service status : string)
| MsgProbeTimeout (service : string)
| MsgProbeError (service detail : string)
| MsgDryRunEmail (subject : string)
| MsgEmailSent (subject : string)
| MsgEmailAttemptFailed (attempt : Z) (e : exn)
| MsgEmailGaveUp
| MsgDryRunWebhook
| MsgWebhookSent
| MsgWebhookFailed (status_code : Z)
| MsgWebhookError (e : exn)
| MsgCheckComplete (service status : string) (should_alert : bool)
| MsgStarting
| MsgUnexpected (e : exn)
| MsgFatal (e : exn).

(** What an observer of the process sees, in order. *)
Inductive event : Type :=
| EvLog (lv : level) (m : message)      (* Logger.log *)
| EvSleep (seconds : Z)                 (* time.sleep *)
| EvSmtp (subject : string)             (* one SMTP session of the transport *)
| EvPost (url : string)                 (* one requests.post *)
| EvStderr (m : message).               (* print(..., file=sys.stderr) *)

Record world : Type := mkWorld {
  sm_state : json;                  (* StateManager.state *)
  state_file : option content;      (* the file at StateManager.state_file *)
  readable : bool;                  (* open(path, 'r') succeeds *)
  disk : medium;
  ticks : nat;                      (* calls of datetime.now() so far *)
  clock : nat -> Z;                 (* what the n-th call returns *)
  smtp_calls : nat;                 (* SMTP sessions so far *)
  smtp : nat -> option exn;         (* the n-th session: delivered, or raises *)
  probes : nat;
  systemctl : nat -> probe;
  posts : nat;
  requests_post : nat -> result Z;  (* the n-th POST: status code, or raises *)
  hostname : string;                (* socket.gethostname() *)
  bodies : bool -> string -> Z -> string * string;
                                    (* the two body templates, filled in *)
  trace : list event
}.

Definition set_sm_state (d : json) (w : world) : world :=
  mkWorld d (state_file w) (readable w) (disk w) (ticks w) (clock w)
    (smtp_calls w) (smtp w) (probes w) (systemctl w) (posts w)
    (requests_post w) (hostname w) (bodies w) (trace w).

Definition set_state_file (f : option content) (w : world) : world :=
  mkWorld (sm_state w) f (readable w) (disk w) (ticks w) (clock w)
    (smtp_calls w) (smtp w) (probes w) (systemctl w) (posts w)
    (requests_post w) (hostname w) (bodies w) (trace w).

Definition set_ticks (n : nat) (w : world) : world :=
  mkWorld (sm_state w) (state_file w) (readable w) (disk w) n (clock w)
    (smtp_calls w) (smtp w) (probes w) (systemctl w) (posts w)
    (requests_post w) (hostname w) (bodies w) (trace w).

Definition set_smtp_calls (n : nat) (w : world) : world :=
  mkWorld (sm_state w) (state_file w) (readable w) (disk w) (ticks w) (clock w)
    n (smtp w) (probes w) (systemctl w) (posts w)
    (requests_post w) (hostname w) (bodies w) (trace w).

Definition set_probes (n : nat) (w : world) : world :=
  mkWorld (sm_state w) (state_file w) (readable w) (disk w) (ticks w) (clock w)
    (smtp_calls w) (smtp w) n (systemctl w) (posts w)
    (requests_post w) (hostname w) (bodies w) (trace w).

Definition set_posts (n : nat) (w : world) : world :=
  mkWorld (sm_state w) (state_file w) (readable w) (disk w) (ticks w) (clock w)
    (smtp_calls w) (smtp w) (probes w) (systemctl w) n
    (requests_post w) (hostname w) (bodies w) (trace w).

Definition set_trace (t : list event) (w : world) : world :=
  mkWorld (sm_state w) (state_file w) (readable w) (disk w) (ticks w) (clock w)
    (smtp_calls w) (smtp w) (probes w) (systemctl w) (posts w)
    (requests_post w) (hostname w) (bodies w) t.

Definition emit (e : event) (w : world) : world :=
  set_trace (trace w ++ [e]) w.

(** ** Computations: state passing with Python exceptions

    A raised exception keeps the changes made to the world before it. *)
Definition M (A : Type) : Type := world -> result A * world.

Definition ret {A : Type} (a : A) : M A := fun w => (Ok a, w).

Definition raise {A : Type} (e : exn) : M A := fun w => (Raise e, w).

Definition bind {A B : Type} (c : M A) (k : A -> M B) : M B :=
  fun w =>
    match c w with
    | (Ok a, w') => k a w'
    | (Raise e, w') => (Raise e, w')
    end.

(** [try: c  except Exception as e: h e]. *)
Definition try_except {A : Type} (c : M A) (h : exn -> M A) : M A :=
  fun w =>
    match c w with
    | (Ok a, w') => (Ok a, w')
    | (Raise e, w') => h e w'
    end.

Definition lift {A : Type} (r : result A) : M A := fun w => (r, w).

Declare Scope py_scope.
Delimit Scope py_scope with py.
Notation "x <- c ;; k" := (bind c (fun x => k))
  (at level 61, c at next level, right associativity) : py_scope.
Notation "c ;; k" := (bind c (fun _ => k))
  (at level 61, right associativity) : py_scope.
Local Open Scope py_scope.

(** [datetime.now()]. *)
Definition now : M Z :=
  fun w => (Ok (clock w (ticks w)), set_ticks (S (ticks w)) w).

(** [time.sleep(d)] for an [int] [d]: the conversion overflows, or the
    length is negative, or the host refuses it, or the process sleeps. *)
Definition sleep {OS : Platform} (d : Z) : M unit :=
  fun w =>
    if (d <? - sleep_max) || (sleep_max <? d) then (Raise OverflowError, w)
    else if d <? 0 then (Raise ValueError, w)
    else if sleep_limit <? d then (Raise OSError, w)
    else (Ok tt, emit (EvSleep d) w).

(** [Logger.log(level, message, correlation_id)]. *)
Definition log (lv : level) (m : message) : M unit :=
  fun w => (Ok tt, emit (EvLog lv m) w).

(** One SMTP session: connect, optional [starttls] and [login],
    [send_message]. *)
Definition smtp_session (subject : string) : M unit :=
  fun w =>
    let w' := emit (EvSmtp subject) (set_smtp_calls (S (smtp_calls w)) w) in
    match smtp w (smtp_calls w) with
    | None => (Ok tt, w')
    | Some e => (Raise e, w')
    end.

(** [Path.mkdir(parents=True, exist_ok=True)] on the directory of the state
    file. *)
Definition mkdir_parents : M unit :=
  fun w =>
    match disk w with
    | NoDirectory => (Raise OSError, w)
    | _ => (Ok tt, w)
    end.

(** [Path.exists()]: [stat] answers, or finds nothing, or fails with an
    error that [exists] does not swallow. *)
Definition path_exists : M bool :=
  fun w =>
    match disk w with
    | NoAccess => (Raise OSError, w)       (* PermissionError *)
    | NoDirectory => (Ok false, w)
    | _ => (Ok (match state_file w with Some _ => true | None => false end), w)
    end.

(** [with open(path, 'r') as f: json.load(f)]. *)
Definition json_load {JS : JsonText} : M json :=
  fun w =>
    match disk w with
    | NoAccess | NoDirectory => (Raise OSError, w)
    | _ =>
        match state_file w with
        | None => (Raise OSError, w)
        | Some c =>
            if readable w then
              match c with
              | Document text =>
                  match loads text with
                  | Some d => (Ok d, w)
                  | None => (Raise ValueError, w)   (* json.JSONDecodeError *)
                  end
              | Garbage => (Raise ValueError, w)
              end
            else (Raise OSError, w)
        end
    end.

(** [with open(path, 'w') as f: json.dump(d, f, indent=2)]. *)
Definition json_dump {JS : JsonText} (d : json) : M unit :=
  fun w =>
    match disk w with
    | Writable => (Ok tt, set_state_file (Some (Document (dumps d))) w)
    | DiskFull => (Raise OSError, set_state_file (Some Garbage) w)
    | ReadOnly | NoAccess | NoDirectory => (Raise OSError, w)
    end.

(** [self.state[k]] and [self.state[k] = v]. *)
Definition state_get (k : string) : M json :=
  fun w => (getitem (sm_state w) k, w).

Definition state_set (k : string) (v : json) : M unit :=
  fun w =>
    match setitem (sm_state w) k v with
    | Ok d => (Ok tt, set_sm_state d w)
    | Raise e => (Raise e, w)
    end.

(** ** Configuration: the values of [Config.config] the monitor reads *)
Record config : Type := mkConfig {
  service_name : string;
  check_interval : Z;
  alert_cooldown : Z;
  retry_attempts : Z;
  retry_delay : Z;
  dry_run : bool;
  enable_webhooks : bool;
  webhook_url : string
}.

(** A value of [datetime.fromisoformat]. *)
Inductive datetime : Type :=
| Naive (t : Z)
| Aware.

(** The decision of a cycle, as [run_check] reads it off [should_alert] and
    [is_recovery]. *)
Inductive AlertDecision : Type :=
| Suppressed
| RaiseFailure
| RaiseRecovery.

(** How [main] ends: it returns, it calls [sys.exit], or its loop is still
    running after the cycles the model was given. *)
Inductive outcome : Type :=
| Returned
| Exit (code : Z)
| Running.

Section Monitor.

Context {DT : DateTime} {JS : JsonText} {OS : Platform}.
Variable cfg : config.

(** *** StateManager *)

Definition default_state : json :=
  JObj [ ("last_check", JNull);
         ("last_status", JNull);
         ("last_alert_time", JNull);
         ("consecutive_failures", JInt 0);
         ("last_success_time", JNull) ].

Definition _load_state : M json :=
  e <- path_exists ;;
  loaded <- (if e
             then try_except (d <- json_load ;; ret (Some d))
                             (fun _ => ret None)
             else ret None) ;;
  match loaded with
  | Some d => ret d
  | None => ret default_state
  end.

(** [StateManager.__init__]. *)
Definition StateManager_init : M unit :=
  mkdir_parents ;;
  d <- _load_state ;;
  fun w => (Ok tt, set_sm_state d w).

Definition save_state : M unit :=
  fun w => json_dump (sm_state w) w.

Definition datetime_fromisoformat (v : json) : M datetime :=
  match v with
  | JStr s =>
      match fromisoformat s with
      | IsoNaive t => ret (Naive t)
      | IsoAware => ret Aware
      | IsoInvalid => raise ValueError
      end
  | _ => raise TypeError
  end.

(** [n - d] for the naive [n]. *)
Definition datetime_sub (n : Z) (d : datetime) : M Z :=
  match d with
  | Naive t => ret (n - t)
  | Aware => raise TypeError
  end.

Definition should_send_alert (current_status : bool) (cooldown_seconds : Z)
  : M bool :=
  if current_status then
    last_status <- state_get "last_status" ;;
    if is_False last_status then ret true
    else ret false
  else
    last_status <- state_get "last_status" ;;
    first_failure <- (if is_None last_status then ret true
                      else last_status' <- state_get "last_status" ;;
                           ret (is_True last_status')) ;;
    if first_failure then ret true
    else
      last_alert_time <- state_get "last_alert_time" ;;
      if truthy last_alert_time then
        last_alert_time' <- state_get "last_alert_time" ;;
        last_alert <- datetime_fromisoformat last_alert_time' ;;
        n <- now ;;
        elapsed <- datetime_sub n last_alert ;;
        cooldown <- lift (timedelta cooldown_seconds) ;;
        if elapsed >? cooldown then ret true
        else ret false
      else ret false.

Definition update_state (status : bool) (alert_sent : bool) : M unit :=
  t <- now ;;
  state_set "last_check" (JStr (isoformat t)) ;;
  state_set "last_status" (JBool status) ;;
  (if status then
     state_set "consecutive_failures" (JInt 0) ;;
     t' <- now ;;
     state_set "last_success_time" (JStr (isoformat t'))
   else
     n <- state_get "consecutive_failures" ;;
     n' <- lift (add_one n) ;;
     state_set "consecutive_failures" n') ;;
  (if alert_sent then
     t'' <- now ;;
     state_set "last_alert_time" (JStr (isoformat t''))
   else ret tt) ;;
  save_state.

(** *** ServiceMonitor *)

Definition check_service_status (name : string) : M (bool * string) :=
  p <- (fun w => (Ok (systemctl w (probes w)), set_probes (S (probes w)) w)) ;;
  match p with
  | Exited returncode stdout =>
      log DEBUG (MsgServiceStatus name stdout) ;;
      ret (returncode =? 0, stdout)
  | TimeoutExpired =>
      log ERROR (MsgProbeTimeout name) ;;
      ret (false, "timeout")
  | ProbeError detail =>
      log ERROR (MsgProbeError name detail) ;;
      ret (false, ("error: " ++ detail)%string)
  end.

(** The [for attempt in range(attempts)] loop of [send_email_alert], with
    [remaining] iterations to go. [Some b] is a [return b] from inside the
    loop. *)
Fixpoint send_attempts (subject : string) (remaining : nat) (attempt : Z)
  : M bool :=
  match remaining with
  | O => ret false
  | S remaining' =>
      returned <-
        try_except
          (smtp_session subject ;;
           log INFO (MsgEmailSent subject) ;;
           ret (Some true))
          (fun e =>
             log ERROR (MsgEmailAttemptFailed (attempt + 1) e) ;;
             (if attempt <? retry_attempts cfg - 1
              then sleep (retry_delay cfg * 2 ^ attempt)
              else ret tt) ;;
             ret None) ;;
      match returned with
      | Some b => ret b
      | None => send_attempts subject remaining' (attempt + 1)
      end
  end.

Definition send_email_alert (subject body_text body_html : string) : M bool :=
  if dry_run cfg then
    log INFO (MsgDryRunEmail subject) ;;
    ret true
  else
    send_attempts subject (Z.to_nat (retry_attempts cfg)) 0.

Definition alert_subject (name host : string) (is_recovery : bool) : string :=
  (if is_recovery
   then "[RECOVERY] " ++ name ++ " service restored on " ++ host
   else "[ALERT] " ++ name ++ " service down on " ++ host)%string.

(** The subject is the code's; the two bodies are its templates filled with
    the host's statistics and the service's recent log lines, read from the
    world ([get_system_stats] and [get_recent_logs] catch their own
    failures; their warning lines are not traced). *)
Definition create_alert_content (name status : string) (is_recovery : bool)
  : M (string * string * string) :=
  host <- (fun w => (Ok (hostname w), w)) ;;
  timestamp <- now ;;
  let subject := alert_subject name host is_recovery in
  texts <- (fun w => (Ok (bodies w is_recovery status timestamp), w)) ;;
  ret (subject, fst texts, snd texts).

(** The payload reads the clock once; [import requests] and the POST
    either answer with a status code or raise. *)
Definition send_webhook_alert (name : string) (is_active : bool)
  (status : string) : M unit :=
  if dry_run cfg then
    log INFO MsgDryRunWebhook
  else
    try_except
      (_timestamp <- now ;;
       status_code <-
         (fun w =>
            (requests_post w (posts w),
             emit (EvPost (webhook_url cfg)) (set_posts (S (posts w)) w))) ;;
       if status_code =? 200 then log INFO MsgWebhookSent
       else log ERROR (MsgWebhookFailed status_code))
      (fun e => log ERROR (MsgWebhookError e)).

(** The decision of lines 441-447: [should_alert] and [is_recovery]. *)
Definition decision (should_alert is_recovery : bool) : AlertDecision :=
  if should_alert then
    if is_recovery then RaiseRecovery else RaiseFailure
  else Suppressed.

(** [is_active and self.state_manager.state['last_status'] is False]. *)
Definition is_recovery_of (is_active : bool) : M bool :=
  if is_active then
    last_status <- state_get "last_status" ;;
    ret (is_False last_status)
  else ret false.

(** The Transition Policy of a cycle: what [run_check] computes before it
    sends anything. *)
Definition decide (is_active : bool) : M AlertDecision :=
  should_alert <- should_send_alert is_active (alert_cooldown cfg) ;;
  if should_alert then
    is_recovery <- is_recovery_of is_active ;;
    ret (decision should_alert is_recovery)
  else ret (decision should_alert false).

Definition run_check : M unit :=
  let name := service_name cfg in
  log DEBUG (MsgStartingCheck name) ;;
  probe_result <- check_service_status name ;;
  let is_active := fst probe_result in
  let status := snd probe_result in
  should_alert <- should_send_alert is_active (alert_cooldown cfg) ;;
  (if should_alert then
     is_recovery <- is_recovery_of is_active ;;
     alert <- create_alert_content name status is_recovery ;;
     email_sent <- send_email_alert (fst (fst alert)) (snd (fst alert))
                     (snd alert) ;;
     (if email_sent then ret tt
      else log ERROR MsgEmailGaveUp) ;;
     (if enable_webhooks cfg && truthy (JStr (webhook_url cfg))
      then send_webhook_alert name is_active status
      else ret tt) ;;
     update_state is_active email_sent
   else
     update_state is_active false) ;;
  log INFO (MsgCheckComplete name status should_alert).

(** *** main *)

(** [n] iterations of the [while True] loop of continuous mode. The loop has
    no exit of its own: only [KeyboardInterrupt] breaks it. *)
Fixpoint monitoring_loop (n : nat) : M unit :=
  match n with
  | O => ret tt
  | S n' =>
      try_except
        (run_check ;;
         sleep (check_interval cfg))
        (fun e =>
           log ERROR (MsgUnexpected e) ;;
           sleep 60) ;;
      monitoring_loop n'
  end.

End Monitor.

(** The configuration with the dry-run flag set to [b]. *)
Definition with_dry_run (b : bool) (cfg : config) : config :=
  mkConfig (service_name cfg) (check_interval cfg) (alert_cooldown cfg)
    (retry_attempts cfg) (retry_delay cfg) b (enable_webhooks cfg)
    (webhook_url cfg).

(** [if args.dry_run: config.config['features']['dry_run'] = True]. *)
Definition effective_config (args_dry_run : bool) (cfg : config) : config :=
  if args_dry_run then with_dry_run true cfg else cfg.

(** What the two constructors at the head of [main] come to.
    [Config(args.config)] reads the environment and the configuration file
    and validates the result; [Logger(config.config)] makes the log directory
    and opens the log file and the syslog socket. Each returns, or raises. *)
Record startup : Type := mkStartup {
  new_config : result config;
  new_logger : result unit
}.

(** [main], for the arguments [--dry-run] and [--once] ([--debug] only
    reaches the [Logger]); [cycles] bounds the iterations of continuous mode
    that are followed. Everything from [Config(...)] on is inside the outer
    [try]. *)
Definition main {DT : DateTime} {JS : JsonText} {OS : Platform}
  (boot : startup) (args_dry_run args_once : bool) (cycles : nat) (w : world)
  : outcome * world :=
  match (config <- lift (new_config boot) ;;
         let cfg := effective_config args_dry_run config in
         lift (new_logger boot) ;;
         StateManager_init ;;
         log INFO MsgStarting ;;
         if args_once then run_check cfg else monitoring_loop cfg cycles) w with
  | (Ok _, w') => (if args_once then Returned else Running, w')
  | (Raise e, w') => (Exit 1, emit (EvStderr (MsgFatal e)) w')
  end.

(** ** The ledger

    The five fields of the specification's HealthLedger, and the dict that
    holds them in the program. [Some true] is "up", [Some false] is "down",
    [None] is "unknown"; the times are instants in microseconds. *)
Record Ledger : Type := mkLedger {
  last_check_time : option Z;
  last_status : option bool;
  last_alert_time : option Z;
  consecutive_failures : Z;
  last_success_time : option Z
}.

Definition zero_ledger : Ledger := mkLedger None None None 0 None.

(** The invariant of the specification's data model. *)
Definition ledger_inv (l : Ledger) : Prop :=
  0 <= consecutive_failures l /\
  (last_status l = Some true -> consecutive_failures l = 0).

Section LedgerDict.

Context {DT : DateTime}.

Definition json_of_time (t : option Z) : json :=
  match t with
  | Some t => JStr (isoformat t)
  | None => JNull
  end.

Definition json_of_status (s : option bool) : json :=
  match s with
  | Some b => JBool b
  | None => JNull
  end.

Definition dict_of_ledger (l : Ledger) : json :=
  JObj [ ("last_check", json_of_time (last_check_time l));
         ("last_status", json_of_status (last_status l));
         ("last_alert_time", json_of_time (last_alert_time l));
         ("consecutive_failures", JInt (consecutive_failures l));
         ("last_success_time", json_of_time (last_success_time l)) ].



Definition field (d : json) (k : string) : option json :=
  match getitem d k with
  | Ok v => Some v
  | Raise _ => None
  end.


(** The policy on a ledger: what [decide] returns when the clock reads [n]. *)
Definition policy (l : Ledger) (is_up : bool) (cooldown n : Z)
  : AlertDecision :=
  if is_up then
    match last_status l with
    | Some false => RaiseRecovery
    | _ => Suppressed
    end
  else
    match last_status l with
    | Some false =>
        match last_alert_time l with
        | Some t =>
            if n - t >? timedelta_seconds cooldown then RaiseFailure
            else Suppressed
        | None => Suppressed
        end
    | _ => RaiseFailure
    end.

(** [should_alert] for a decision. *)
Definition alerts (d : AlertDecision) : bool :=
  match d with
  | Suppressed => false
  | _ => true
  end.

(** Does the policy read the clock? Only on the cooldown path. *)
Definition reads_clock (l : Ledger) (is_up : bool) : bool :=
  if is_up then false
  else
    match last_status l, last_alert_time l with
    | Some false, Some _ => true
    | _, _ => false
    end.

(** The ticks the policy consumes. *)
Definition policy_ticks (l : Ledger) (is_up : bool) : nat :=
  if reads_clock l is_up then 1%nat else 0%nat.

(** The ledger after [update_state status alert_sent], when the calls of
    [datetime.now()] start at tick [k] of the clock [clk]. *)
Definition updated (l : Ledger) (status alert_sent : bool)
  (clk : nat -> Z) (k : nat) : Ledger :=
  mkLedger
    (Some (clk k))
    (Some status)
    (if alert_sent
     then Some (clk (if status then S (S k) else S k))
     else last_alert_time l)
    (if status then 0 else consecutive_failures l + 1)
    (if status then Some (clk (S k)) else last_success_time l).

(** The ticks [update_state] consumes. *)
Definition update_ticks (status alert_sent : bool) : nat :=
  (1 + (if status then 1 else 0) + (if alert_sent then 1 else 0))%nat.

End LedgerDict.

(** The policy of a cycle does not reach [timedelta], or [timedelta] takes
    the cooldown. *)
Definition cooldown_ok (cfg : config) (l : Ledger) (is_up : bool) : bool :=
  negb (reads_clock l is_up) || timedelta_in_range (alert_cooldown cfg).

(** Every backoff delay of [send_email_alert] is a length that [time.sleep]
    takes: attempt [i] (zero-based), when it fails and is not the last, is
    followed by a sleep of [retry_delay * 2 ** i]. *)
Definition backoff_ok {OS : Platform} (cfg : config) : Prop :=
  forall i : Z, 0 <= i < retry_attempts cfg - 1 ->
                0 <= retry_delay cfg * 2 ^ i <= sleep_limit.

(** [send_email_alert] reaches no sleep that could raise: the dry-run flag
    is set, or every backoff delay is taken, or the first session delivers. *)
Definition dispatch_returns {OS : Platform} (cfg : config) (w : world)
  : Prop :=
  dry_run cfg = true \/ backoff_ok cfg \/
  (0 < retry_attempts cfg /\ smtp w (smtp_calls w) = None).

(** The health a probe reports, and its status text. *)
Definition probe_active (p : probe) : bool :=
  match p with
  | Exited returncode _ => returncode =? 0
  | _ => false
  end.

Definition probe_status (p : probe) : string :=
  match p with
  | Exited _ stdout => stdout
  | TimeoutExpired => "timeout"
  | ProbeError detail => ("error: " ++ detail)%string
  end.

(** The log line of [check_service_status]. *)
Definition probe_event (name : string) (p : probe) : event :=
  match p with
  | Exited _ stdout => EvLog DEBUG (MsgServiceStatus name stdout)
  | TimeoutExpired => EvLog ERROR (MsgProbeTimeout name)
  | ProbeError detail => EvLog ERROR (MsgProbeError name detail)
  end.

(** The sleeps of a trace, in order. *)
Fixpoint sleeps (tr : list event) : list Z :=
  match tr with
  | [] => []
  | EvSleep d :: rest => d :: sleeps rest
  | _ :: rest => sleeps rest
  end.

(** The SMTP sessions of a trace. *)
Fixpoint sessions (tr : list event) : nat :=
  match tr with
  | [] => O
  | EvSmtp _ :: rest => S (sessions rest)
  | _ :: rest => sessions rest
  end.


(** ** A reference instance of the [datetime] interface

    Instants are written in decimal after a ["T"]; it stands in for the real
    text format wherever a concrete run is evaluated. *)
Definition decimal_isoformat (t : Z) : string :=
  String "T"%char (DecimalString.NilEmpty.string_of_int (Z.to_int t)).

Definition decimal_fromisoformat (s : string) : iso_parse :=
  match s with
  | String c rest =>
      if Ascii.eqb c "T"%char then
        match DecimalString.NilEmpty.int_of_string rest with
        | Some d => IsoNaive (Z.of_int d)
        | None => IsoInvalid
        end
      else IsoInvalid
  | EmptyString => IsoInvalid
  end.

#[export] Instance decimal_datetime : DateTime.
Proof.
  refine (Build_DateTime decimal_isoformat decimal_fromisoformat _ _).
  - intro t. unfold decimal_isoformat, decimal_fromisoformat.
    rewrite Ascii.eqb_refl, DecimalString.NilEmpty.isi, DecimalZ.of_to.
    reflexivity.
  - intro t. discriminate.
Defined.

(** ** A reference instance of the [json] interface

    A text format made to be read back without lookahead: every value starts
    with a tag, strings are given character by character, integers bit by
    bit. It stands in for the real format wherever a concrete run is
    evaluated. *)
Fixpoint encode_text (s : string) : string :=
  match s with
  | EmptyString => "."
  | String c s' => String "+" (String c (encode_text s'))
  end.

Fixpoint decode_text (s : string) : option (string * string) :=
  match s with
  | String c rest =>
      if Ascii.eqb c "." then Some (EmptyString, rest)
      else if Ascii.eqb c "+" then
        match rest with
        | String a rest' =>
            match decode_text rest' with
            | Some (t, r) => Some (String a t, r)
            | None => None
            end
        | EmptyString => None
        end
      else None
  | EmptyString => None
  end.

Fixpoint encode_pos (p : positive) : string :=
  match p with
  | xH => "H"
  | xO p' => String "O" (encode_pos p')
  | xI p' => String "I" (encode_pos p')
  end.

Fixpoint decode_pos (s : string) : option (positive * string) :=
  match s with
  | String c rest =>
      if Ascii.eqb c "H" then Some (xH, rest)
      else if Ascii.eqb c "O" then
        match decode_pos rest with
        | Some (p, r) => Some (xO p, r)
        | None => None
        end
      else if Ascii.eqb c "I" then
        match decode_pos rest with
        | Some (p, r) => Some (xI p, r)
        | None => None
        end
      else None
  | EmptyString => None
  end.

Definition encode_Z (n : Z) : string :=
  match n with
  | Z0 => "z"
  | Zpos p => String "p" (encode_pos p)
  | Zneg p => String "m" (encode_pos p)
  end.

Definition decode_Z (s : string) : option (Z * string) :=
  match s with
  | String c rest =>
      if Ascii.eqb c "z" then Some (Z0, rest)
      else if Ascii.eqb c "p" then
        match decode_pos rest with
        | Some (p, r) => Some (Zpos p, r)
        | None => None
        end
      else if Ascii.eqb c "m" then
        match decode_pos rest with
        | Some (p, r) => Some (Zneg p, r)
        | None => None
        end
      else None
  | EmptyString => None
  end.

Fixpoint encode (v : json) : string :=
  match v with
  | JNull => "n"
  | JBool b => if b then "t" else "f"
  | JInt n => String "i" (encode_Z n)
  | JFloat _ => "?"
  | JStr s => String "s" (encode_text s)
  | JList l =>
      String "["
        ((fix items (l : list json) : string :=
            match l with
            | [] => "]"
            | x :: r => (encode x ++ items r)%string
            end) l)
  | JObj kvs =>
      String "{"
        ((fix members (kvs : list (string * json)) : string :=
            match kvs with
            | [] => "}"
            | (k, x) :: r =>
                (String ":" (encode_text k) ++ encode x ++ members r)%string
            end) kvs)
  end.

(** The items of a list and the members of an object, as [encode] writes
    them. *)
Fixpoint encode_items (l : list json) : string :=
  match l with
  | [] => "]"
  | x :: r => (encode x ++ encode_items r)%string
  end.

Fixpoint encode_members (kvs : list (string * json)) : string :=
  match kvs with
  | [] => "}"
  | (k, x) :: r =>
      (String ":" (encode_text k) ++ encode x ++ encode_members r)%string
  end.

(** Reading a value off the head of a text; [fuel] bounds the depth and the
    number of items. *)
Fixpoint decode (fuel : nat) (s : string) : option (json * string) :=
  match fuel with
  | O => None
  | S fuel' =>
      match s with
      | EmptyString => None
      | String c rest =>
          if Ascii.eqb c "n" then Some (JNull, rest)
          else if Ascii.eqb c "t" then Some (JBool true, rest)
          else if Ascii.eqb c "f" then Some (JBool false, rest)
          else if Ascii.eqb c "i" then
            match decode_Z rest with
            | Some (n, r) => Some (JInt n, r)
            | None => None
            end
          else if Ascii.eqb c "s" then
            match decode_text rest with
            | Some (t, r) => Some (JStr t, r)
            | None => None
            end
          else if Ascii.eqb c "[" then
            match decode_items fuel' rest with
            | Some (l, r) => Some (JList l, r)
            | None => None
            end
          else if Ascii.eqb c "{" then
            match decode_members fuel' rest with
            | Some (kvs, r) => Some (JObj kvs, r)
            | None => None
            end
          else None
      end
  end
with decode_items (fuel : nat) (s : string) : option (list json * string) :=
  match fuel with
  | O => None
  | S fuel' =>
      match s with
      | EmptyString => None
      | String c rest =>
          if Ascii.eqb c "]" then Some ([], rest)
          else
            match decode fuel' s with
            | Some (x, r) =>
                match decode_items fuel' r with
                | Some (l, r') => Some (x :: l, r')
                | None => None
                end
            | None => None
            end
      end
  end
with decode_members (fuel : nat) (s : string)
  : option (list (string * json) * string) :=
  match fuel with
  | O => None
  | S fuel' =>
      match s with
      | EmptyString => None
      | String c rest =>
          if Ascii.eqb c "}" then Some ([], rest)
          else if Ascii.eqb c ":" then
            match decode_text rest with
            | Some (k, r) =>
                match decode fuel' r with
                | Some (x, r') =>
                    match decode_members fuel' r' with
                    | Some (kvs, r'') => Some ((k, x) :: kvs, r'')
                    | None => None
                    end
                | None => None
                end
            | None => None
            end
          else None
      end
  end.

(** The whole text is one value. *)
Definition decode_all (s : string) : option json :=
  match decode (S (String.length s)) s with
  | Some (v, EmptyString) => Some v
  | _ => None
  end.

#[export] Instance reference_json : JsonText.
Proof.
  refine (Build_JsonText encode decode_all _).
  assert (Hlen : forall u v : string,
             String.length (u ++ v) = (String.length u + String.length v)%nat).
  { induction u as [|c u IH]; intros v; simpl; [reflexivity|].
    now rewrite IH. }
  assert (Hassoc : forall u v w : string,
             ((u ++ v) ++ w)%string = (u ++ (v ++ w))%string).
  { induction u as [|c u IH]; intros v w; simpl; [reflexivity|].
    now rewrite IH. }
  assert (Hnil : forall u : string, (u ++ "")%string = u).
  { induction u as [|c u IH]; simpl; [reflexivity | now rewrite IH]. }
  assert (Htext : forall s rest,
             decode_text (encode_text s ++ rest) = Some (s, rest)).
  { induction s as [|c s IH]; intros rest; simpl; [reflexivity|].
    now rewrite IH. }
  assert (Hpos : forall p rest,
             decode_pos (encode_pos p ++ rest) = Some (p, rest)).
  { induction p as [p IH|p IH|]; intros rest; simpl;
      rewrite ?IH; reflexivity. }
  assert (HZ : forall n rest, decode_Z (encode_Z n ++ rest) = Some (n, rest)).
  { intros [|p|p] rest; simpl; rewrite ?Hpos; reflexivity. }
  assert (Hitems : forall l, encode (JList l) = String "[" (encode_items l)).
  { intros l. reflexivity. }
  assert (Hmembers : forall kvs,
             encode (JObj kvs) = String "{" (encode_members kvs)).
  { intros kvs. reflexivity. }
  assert (Htag : forall v, exists c body,
             encode v = String c body /\
             Ascii.eqb c "]" = false /\ Ascii.eqb c "}" = false).
  { intros [| [|] | n | f | t | l | kvs]; simpl;
      eexists _, _; (split; [reflexivity|]); split; reflexivity. }
  assert (Hstep_items : forall fuel c rest,
             decode_items (S fuel) (String c rest) =
             if Ascii.eqb c "]" then Some ([], rest)
             else
               match decode fuel (String c rest) with
               | Some (x, r) =>
                   match decode_items fuel r with
                   | Some (l, r') => Some (x :: l, r')
                   | None => None
                   end
               | None => None
               end) by reflexivity.
  assert (Hstep_members : forall fuel rest,
             decode_members (S fuel) (String ":" rest) =
             match decode_text rest with
             | Some (k, r) =>
                 match decode fuel r with
                 | Some (x, r') =>
                     match decode_members fuel r' with
                     | Some (kvs, r'') => Some ((k, x) :: kvs, r'')
                     | None => None
                     end
                 | None => None
                 end
             | None => None
             end) by reflexivity.
  assert (Hstep_list : forall fuel rest,
             decode (S fuel) (String "[" rest) =
             match decode_items fuel rest with
             | Some (l, r) => Some (JList l, r)
             | None => None
             end) by reflexivity.
  assert (Hstep_obj : forall fuel rest,
             decode (S fuel) (String "{" rest) =
             match decode_members fuel rest with
             | Some (kvs, r) => Some (JObj kvs, r)
             | None => None
             end) by reflexivity.
  assert (Hpos_items : forall l, (0 < String.length (encode_items l))%nat).
  { intros [|x r]; simpl; [lia|]. rewrite Hlen.
    destruct (Htag x) as (c & body & E & _). rewrite E. simpl. lia. }
  assert (Hpos_members : forall kvs,
             (0 < String.length (encode_members kvs))%nat).
  { intros [|[k x] r]; simpl; lia. }
  assert (Hval : forall v, float_free v = true ->
             forall rest fuel,
               (String.length (encode v) < fuel)%nat ->
               decode fuel (encode v ++ rest) = Some (v, rest)).
  { fix IH 1. intros v Hv rest fuel Hfuel.
    destruct fuel as [|fuel]; [inversion Hfuel|].
    destruct v as [| b | n | f | t | l | kvs].
    - reflexivity.
    - destruct b; reflexivity.
    - simpl. now rewrite HZ.
    - discriminate.
    - simpl. now rewrite Htext.
    - rewrite Hitems in *. cbn [append]. rewrite Hstep_list.
      cbn [String.length] in Hfuel.
      assert (Hl : forall rest' fuel',
                 (String.length (encode_items l) < fuel')%nat ->
                 decode_items fuel' (encode_items l ++ rest') =
                   Some (l, rest')).
      { cbn [float_free] in Hv. clear Hfuel. revert Hv.
        induction l as [|x r IHl]; intros Hv rest' fuel' Hf;
          (destruct fuel' as [|fuel']; [inversion Hf|]).
        - reflexivity.
        - cbn [forallb] in Hv. apply andb_true_iff in Hv as [Hx Hr].
          cbn [encode_items] in *. rewrite Hlen in Hf.
          pose proof (Hpos_items r) as Hpr.
          assert (Hpx : (0 < String.length (encode x))%nat)
            by (destruct (Htag x) as (c & body & E & _); rewrite E;
                simpl; lia).
          rewrite Hassoc.
          pose proof (IH x Hx (encode_items r ++ rest')%string fuel'
                        ltac:(lia)) as Ex.
          pose proof (IHl Hr rest' fuel' ltac:(lia)) as Er.
          destruct (Htag x) as (c & body & E & Hc & _).
          rewrite E in *. cbn [append] in *.
          rewrite Hstep_items, Hc, Ex, Er. reflexivity. }
      rewrite Hl by lia. reflexivity.
    - rewrite Hmembers in *. cbn [append]. rewrite Hstep_obj.
      cbn [String.length] in Hfuel.
      assert (Hm : forall rest' fuel',
                 (String.length (encode_members kvs) < fuel')%nat ->
                 decode_members fuel' (encode_members kvs ++ rest') =
                   Some (kvs, rest')).
      { cbn [float_free] in Hv. clear Hfuel. revert Hv.
        induction kvs as [|[k x] r IHm]; intros Hv rest' fuel' Hf;
          (destruct fuel' as [|fuel']; [inversion Hf|]).
        - reflexivity.
        - cbn [forallb snd] in Hv. apply andb_true_iff in Hv as [Hx Hr].
          cbn [encode_members] in *. cbn [append String.length] in Hf.
          rewrite !Hlen in Hf.
          pose proof (Hpos_members r) as Hpr.
          cbn [append]. rewrite Hstep_members.
          rewrite !Hassoc, Htext.
          rewrite (IH x Hx) by lia.
          rewrite (IHm Hr) by lia.
          reflexivity. }
      rewrite Hm by lia. reflexivity. }
  intros d Hd. unfold decode_all.
  rewrite <- (Hnil (encode d)) at 2.
  rewrite (Hval d Hd) by lia. reflexivity.
Defined.

(** ** A reference host: it takes sleeps of up to 9000000000 seconds. *)
#[export] Instance reference_platform : Platform.
Proof.
  refine (Build_Platform 9000000000 _). unfold sleep_max. lia.
Defined.

(** The defaults of [Config._load_config]. *)
Definition default_config : config :=
  mkConfig "squid" 300 3600 3 5 false false "".

(** A host for concrete runs: no state file yet, a readable store, no
    calls made so far, a webhook endpoint that answers 200. *)
Definition host (st : json) (d : medium) (clk : nat -> Z)
  (transport : nat -> option exn) (service : nat -> probe) : world :=
  mkWorld st None true d
    O clk
    O transport
    O service
    O (fun _ => Ok 200)
    "proxy01" (fun _ _ _ => ("", ""))
    [].

(** A clock that advances one second per reading. *)
Definition seconds_clock (n : nat) : Z := Z.of_nat n * 1000000.

Definition delivering : nat -> option exn := fun _ => None.
Definition unreachable : nat -> option exn := fun _ => Some SMTPException.

Definition inactive : nat -> probe := fun _ => Exited 3 "inactive".
Definition active : nat -> probe := fun _ => Exited 0 "active".

(** A first run: the service is down and the transport delivers. *)
Definition fresh_world : world :=
  host default_state Writable seconds_clock delivering inactive.

(** A first run while the mail server cannot be reached. *)
Definition mail_outage : world :=
  host default_state Writable seconds_clock unreachable inactive.

(** The ledger that the first cycle of [mail_outage] leaves behind. *)
Definition outage_unreported : Ledger :=
  mkLedger (Some 1000000) (Some false) None 1 None.

(** A first run on a store that cannot be written. *)
Definition readonly_world : world :=
  host default_state ReadOnly seconds_clock delivering inactive.

(** A ledger of an outage that was reported at instant 0, looked at exactly
    one hour later. *)
Definition reported_outage : Ledger :=
  mkLedger (Some 0) (Some false) (Some 0) 1 None.

Definition one_hour_later : world :=
  host (dict_of_ledger reported_outage) Writable
    (fun _ => 3600 * 1000000) delivering inactive.

(** The same outage, with the service back up. *)
Definition back_up : world :=
  host (dict_of_ledger reported_outage) Writable seconds_clock delivering
    active.

(** A healthy ledger, and a host where the service has just gone down. *)
Definition healthy : Ledger := mkLedger (Some 0) (Some true) None 0 (Some 0).

Definition gone_down : world :=
  host (dict_of_ledger healthy) Writable seconds_clock delivering inactive.

(** The first cycle of [mail_outage] behind it, the mail server back. *)
Definition mail_back : world :=
  host (dict_of_ledger outage_unreported) Writable seconds_clock delivering
    inactive.



(** A state file that holds no JSON, and one that holds the document [{}]. *)
Definition corrupt_store : world :=
  set_state_file (Some Garbage) fresh_world.

Definition empty_object_store : world :=
  set_state_file (Some (Document (dumps (JObj [])))) fresh_world.

(** A state file in a directory that may not be searched. *)
Definition locked_store : world :=
  host default_state NoAccess seconds_clock delivering inactive.


Definition endless_cooldown_config : config :=
  mkConfig "squid" 300 100000000000000 3 5 false false "".

(** A start-up where both constructors return, with the defaults. *)
Definition default_boot : startup := mkStartup (Ok default_config) (Ok tt).

(** ** Config: merging the configuration file into the defaults *)

(** [Config._merge_config(base, override)], returning [base] as the call
    leaves it. Each key of [override] is visited in order; where both sides
    hold a dict the merge goes one level down, otherwise the value of
    [override] is stored under the key. The recursion is on the value of
    [override]; [merge_into] is only ever applied to a dict. *)
Fixpoint merge_into (override : json) (base : list (string * json))
  {struct override} : list (string * json) :=
  match override with
  | JObj items =>
      (fix visit (items : list (string * json))
           (base : list (string * json)) {struct items}
         : list (string * json) :=
         match items with
         | [] => base
         | (key, value) :: rest =>
             visit rest
               (match dict_get key base, value with
                | Some (JObj sub), JObj _ =>
                    dict_set key (JObj (merge_into value sub)) base
                | _, _ => dict_set key value base
                end)
         end) items base
  | _ => base
  end.

Definition _merge_config (base override : list (string * json))
  : list (string * json) :=
  merge_into (JObj override) base.

(** What one step of the loop leaves under [key]: [old] is [base.get(key)]
    before the step, [value] the value of [override]. *)
Definition merged_value (old : option json) (value : json) : json :=
  match old, value with
  | Some (JObj sub), JObj items => JObj (_merge_config sub items)
  | _, _ => value
  end.

(** The keys of a dict, in order. *)
Definition keys (d : list (string * json)) : list string := map fst d.

(** A dict as Python has it: no key twice, at any depth. *)
Fixpoint well_keyed (v : json) : Prop :=
  match v with
  | JObj items =>
      NoDup (map fst items) /\
      (fix all (items : list (string * json)) : Prop :=
         match items with
         | [] => True
         | (_, value) :: rest => well_keyed value /\ all rest
         end) items
  | _ => True
  end.

(** ** Config: validation *)

(** Regular expressions, as far as the pattern of [_validate_config] uses
    them: character classes, concatenation, alternation, repetition. *)
Inductive regex : Type :=
| Void
| Eps
| Class (p : ascii -> bool)
| Cat (r s : regex)
| Alt (r s : regex)
| Star (r : regex).

(** The strings of a regular expression. *)
Inductive lang : regex -> string -> Prop :=
| lang_eps : lang Eps ""
| lang_class (p : ascii -> bool) (c : ascii) :
    p c = true -> lang (Class p) (String c "")
| lang_cat (r s : regex) (u v : string) :
    lang r u -> lang s v -> lang (Cat r s) (u ++ v)%string
| lang_alt_l (r s : regex) (u : string) : lang r u -> lang (Alt r s) u
| lang_alt_r (r s : regex) (u : string) : lang s u -> lang (Alt r s) u
| lang_star_nil (r : regex) : lang (Star r) ""
| lang_star_cons (r : regex) (u v : string) :
    lang r u -> lang (Star r) v -> lang (Star r) (u ++ v)%string.

Fixpoint nullable (r : regex) : bool :=
  match r with
  | Void => false
  | Eps => true
  | Class _ => false
  | Cat r s => nullable r && nullable s
  | Alt r s => nullable r || nullable s
  | Star _ => true
  end.

(** What is left of [r] after the character [c]. *)
Fixpoint deriv (c : ascii) (r : regex) : regex :=
  match r with
  | Void => Void
  | Eps => Void
  | Class p => if p c then Eps else Void
  | Cat r s =>
      Alt (Cat (deriv c r) s) (if nullable r then deriv c s else Void)
  | Alt r s => Alt (deriv c r) (deriv c s)
  | Star r => Cat (deriv c r) (Star r)
  end.

(** Does the whole of [s] match [r]? *)
Fixpoint matches (r : regex) (s : string) : bool :=
  match s with
  | EmptyString => nullable r
  | String c s' => matches (deriv c r) s'
  end.

Definition between (lo hi c : ascii) : bool :=
  (nat_of_ascii lo <=? nat_of_ascii c)%nat &&
  (nat_of_ascii c <=? nat_of_ascii hi)%nat.

(** [[a-zA-Z]], [[a-zA-Z0-9]]. *)
Definition alpha (c : ascii) : bool :=
  between "a" "z" c || between "A" "Z" c.

Definition alnum (c : ascii) : bool :=
  alpha c || between "0" "9" c.

(** [[a-zA-Z0-9._%+-]]. *)
Definition local_char (c : ascii) : bool :=
  alnum c || Ascii.eqb c "." || Ascii.eqb c "_" || Ascii.eqb c "%"
  || Ascii.eqb c "+" || Ascii.eqb c "-".

(** [[a-zA-Z0-9.-]]. *)
Definition domain_char (c : ascii) : bool :=
  alnum c || Ascii.eqb c "." || Ascii.eqb c "-".

Definition newline : ascii := ascii_of_nat 10.

(** [r+]. *)
Definition plus (r : regex) : regex := Cat r (Star r).

(** [^[a-zA-Z0-9._%+-]+@[a-zA-Z0-9.-]+\.[a-zA-Z]{2,}$]. The pattern is used
    with [match], which anchors it at the start; [$] is the end of the
    string or the place before a newline that ends the string. *)
Definition email_pattern : regex :=
  Cat (plus (Class local_char))
    (Cat (Class (Ascii.eqb "@"))
       (Cat (plus (Class domain_char))
          (Cat (Class (Ascii.eqb "."))
             (Cat (Cat (Class alpha) (Cat (Class alpha) (Star (Class alpha))))
                (Alt Eps (Class (Ascii.eqb newline))))))).

(** [email_pattern.match(s)] as a truth value. *)
Definition email_match (s : string) : bool := matches email_pattern s.

(** ASCII whitespace, as [str.strip()] removes it. *)
Definition is_space (c : ascii) : bool :=
  let n := nat_of_ascii c in
  ((9 <=? n) && (n <=? 13) || (28 <=? n) && (n <=? 32))%nat.

Fixpoint lstrip (s : string) : string :=
  match s with
  | String c s' => if is_space c then lstrip s' else s
  | EmptyString => EmptyString
  end.

(** The string without its trailing whitespace. *)
Fixpoint rstrip (s : string) : string :=
  match s with
  | String c s' =>
      match rstrip s' with
      | EmptyString => if is_space c then EmptyString else String c EmptyString
      | t => String c t
      end
  | EmptyString => EmptyString
  end.

(** [s.strip()], for ASCII text. *)
Definition strip (s : string) : string := rstrip (lstrip s).

(** All characters are ASCII. *)
Fixpoint is_ascii (s : string) : bool :=
  match s with
  | String c s' => (nat_of_ascii c <? 128)%nat && is_ascii s'
  | EmptyString => true
  end.

(** ** Config: validation, on the configuration as [_load_config] leaves it

    The values under [smtp] are whatever the environment and the merged
    file put there, so each step is taken with the exception it raises on a
    value of another type. *)

(** [email_pattern.match(v)] as a truth value: [v] must be a [str]. *)
Definition pattern_match (v : json) : result bool :=
  match v with
  | JStr s => Ok (email_match s)
  | _ => Raise TypeError
  end.

(** [v.strip()]: only a [str] has the method. *)
Definition str_strip (v : json) : result json :=
  match v with
  | JStr s => Ok (JStr (strip s))
  | _ => Raise AttributeError
  end.

(** The characters of a string, each as a string. *)
Fixpoint characters (s : string) : list json :=
  match s with
  | EmptyString => []
  | String c s' => JStr (String c EmptyString) :: characters s'
  end.

(** What [for email in v] visits: the items of a list, the keys of a dict,
    the characters of a [str]; nothing else can be iterated. *)
Definition iterate (v : json) : result (list json) :=
  match v with
  | JList l => Ok l
  | JObj kvs => Ok (map (fun kv => JStr (fst kv)) kvs)
  | JStr s => Ok (characters s)
  | _ => Raise TypeError
  end.

(** [for email in ...: if not pattern.match(email.strip()): raise]. *)
Fixpoint check_recipients (to_addresses : list json) : result unit :=
  match to_addresses with
  | [] => Ok tt
  | email :: rest =>
      match str_strip email with
      | Ok stripped =>
          match pattern_match stripped with
          | Ok true => check_recipients rest
          | Ok false => Raise ValueError
          | Raise e => Raise e
          end
      | Raise e => Raise e
      end
  end.

(** The integers from [lo] on, [n] of them. *)
Fixpoint range_from (lo : Z) (n : nat) : list Z :=
  match n with
  | O => []
  | S n' => lo :: range_from (lo + 1) n'
  end.

(** [v in range(1, 65536)]: an [int] or a [bool] is looked up by its value;
    anything else is compared with the members one by one, and only a
    [float] can be equal to one. *)
Definition in_port_range (v : json) : bool :=
  match v with
  | JInt n => (1 <=? n) && (n <? 65536)
  | JBool b => b
  | JFloat f =>
      existsb (fun i => PrimFloat.eqb f (PrimFloat.of_uint63 (Uint63.of_Z i)))
        (range_from 1 (Z.to_nat 65535))
  | _ => false
  end.

(** The three checks, on the values found. *)
Definition check_from (from_address : json) : result unit :=
  match pattern_match from_address with
  | Ok true => Ok tt
  | Ok false => Raise ValueError
  | Raise e => Raise e
  end.

Definition check_to (to_addresses : json) : result unit :=
  match iterate to_addresses with
  | Ok l => check_recipients l
  | Raise e => Raise e
  end.

Definition check_port (port : json) : result unit :=
  if in_port_range port then Ok tt else Raise ValueError.

(** [self.config['smtp'][k]]. *)
Definition smtp_value (config : json) (k : string) : result json :=
  match getitem config "smtp" with
  | Ok smtp => getitem smtp k
  | Raise e => Raise e
  end.

(** [Config._validate_config]: each value is looked up when its check is
    reached. *)
Definition _validate_config (config : json) : result unit :=
  match smtp_value config "from_address" with
  | Raise e => Raise e
  | Ok from_address =>
      match check_from from_address with
      | Raise e => Raise e
      | Ok _ =>
          match smtp_value config "to_addresses" with
          | Raise e => Raise e
          | Ok to_addresses =>
              match check_to to_addresses with
              | Raise e => Raise e
              | Ok _ =>
                  match smtp_value config "port" with
                  | Raise e => Raise e
                  | Ok port => check_port port
                  end
              end
          end
      end
  end.

(** A configuration whose [smtp] section holds a sender, a list of [str]
    recipients and a port, whatever else it holds. *)
Definition smtp_values (config from_address : json)
  (to_addresses : list string) (port : json) : Prop :=
  smtp_value config "from_address" = Ok from_address /\
  smtp_value config "to_addresses" = Ok (JList (map JStr to_addresses)) /\
  smtp_value config "port" = Ok port.

(** The number of times [c] occurs in [s]. *)
Fixpoint occurrences (c : ascii) (s : string) : nat :=
  match s with
  | String c' s' =>
      ((if Ascii.eqb c c' then 1 else 0) + occurrences c s')%nat
  | EmptyString => O
  end.

(** Every character of [s] satisfies [p]. *)
Fixpoint all_chars (p : ascii -> bool) (s : string) : bool :=
  match s with
  | String c s' => p c && all_chars p s'
  | EmptyString => true
  end.


(** [s.split(sep)] for a separator of one character, as [_load_config]
    applies it to the value of [SMTP_TO]. *)
Fixpoint split (sep : ascii) (s : string) : list string :=
  match s with
  | EmptyString => [EmptyString]
  | String c s' =>
      if Ascii.eqb c sep then EmptyString :: split sep s'
      else
        match split sep s' with
        | piece :: rest => String c piece :: rest
        | [] => [String c EmptyString]
        end
  end.

(** ** Concrete inputs for the configuration and the cycles *)

(** A monitor whose state file held [{}]: the state in memory has no
    [last_status]. *)
Definition blind_world : world :=
  host (JObj []) Writable seconds_clock delivering inactive.

(** The [smtp] section of the defaults, as far as a file below touches it,
    and a file that moves the port. *)
Definition default_sections : list (string * json) :=
  [ ("smtp", JObj [ ("server", JStr "smtp.example.com");
                    ("port", JInt 25) ]);
    ("monitoring", JObj [ ("service_name", JStr "squid") ]) ].

Definition file_sections : list (string * json) :=
  [ ("smtp", JObj [ ("port", JInt 587) ]);
    ("webhooks", JObj [ ("url", JStr "http://hooks.example.com") ]) ].

(** A configuration with the given sender, recipients and port. *)
Definition smtp_config (from_address : string) (to_addresses : list string)
  (port : Z) : json :=
  JObj [ ("smtp", JObj [ ("server", JStr "smtp.example.com");
                         ("port", JInt port);
                         ("from_address", JStr from_address);
                         ("to_addresses", JList (map JStr to_addresses)) ]);
         ("monitoring", JObj [ ("service_name", JStr "squid") ]) ].

(** * Properties *)

(** Projections of a world that has been built by the setters, innermost
    setter first. *)
Ltac wsimpl :=
  cbv beta iota delta
    [emit set_sm_state set_state_file set_ticks set_smtp_calls set_probes
     set_posts set_trace
     sm_state state_file readable disk ticks clock smtp_calls smtp probes
     systemctl posts requests_post hostname bodies trace].
Ltac wsimpl_in H :=
  cbv beta iota delta
    [emit set_sm_state set_state_file set_ticks set_smtp_calls set_probes
     set_posts set_trace
     sm_state state_file readable disk ticks clock smtp_calls smtp probes
     systemctl posts requests_post hostname bodies trace] in H.

(** ** Sequencing *)

Lemma bind_ok {A B : Type} (c : M A) (k : A -> M B) (w w' : world) (a : A) :
  c w = (Ok a, w') -> bind c k w = k a w'.
Proof. intros E. unfold bind. rewrite E. reflexivity. Qed.

Lemma bind_raise {A B : Type} (c : M A) (k : A -> M B) (w w' : world)
  (e : exn) :
  c w = (Raise e, w') -> bind c k w = (Raise e, w').
Proof. intros E. unfold bind. rewrite E. reflexivity. Qed.

Lemma try_except_ok {A : Type} (c : M A) (h : exn -> M A) (w w' : world)
  (a : A) :
  c w = (Ok a, w') -> try_except c h w = (Ok a, w').
Proof. intros E. unfold try_except. rewrite E. reflexivity. Qed.

Lemma try_except_raise {A : Type} (c : M A) (h : exn -> M A) (w w' : world)
  (e : exn) :
  c w = (Raise e, w') -> try_except c h w = h e w'.
Proof. intros E. unfold try_except. rewrite E. reflexivity. Qed.

(** ** Dicts *)

Lemma dict_get_set_same (k : string) (v : json) (kvs : list (string * json)) :
  dict_get k (dict_set k v kvs) = Some v.
Proof.
  induction kvs as [|[k' v'] rest IH]; simpl.
  - now rewrite String.eqb_refl.
  - destruct (String.eqb k k') eqn:E; simpl; rewrite E; auto.
Qed.

Lemma dict_get_set_other (k k' : string) (v : json)
  (kvs : list (string * json)) :
  k <> k' -> dict_get k (dict_set k' v kvs) = dict_get k kvs.
Proof.
  intros N. induction kvs as [|[k0 v0] rest IH]; simpl.
  - apply String.eqb_neq in N. now rewrite N.
  - destruct (String.eqb k' k0) eqn:E; simpl.
    + apply String.eqb_eq in E. subst k0.
      apply String.eqb_neq in N. now rewrite N.
    + now rewrite IH.
Qed.

Lemma sleeps_app (tr tr' : list event) :
  sleeps (tr ++ tr') = sleeps tr ++ sleeps tr'.
Proof.
  induction tr as [|[] tr IH]; simpl; rewrite ?IH; reflexivity.
Qed.

Lemma sleeps_probe_event (name : string) (p : probe) :
  sleeps [probe_event name p] = [].
Proof. destruct p; reflexivity. Qed.

Lemma sessions_probe_event (name : string) (p : probe) :
  sessions [probe_event name p] = O.
Proof. destruct p; reflexivity. Qed.

Lemma sessions_app (tr tr' : list event) :
  sessions (tr ++ tr') = (sessions tr + sessions tr')%nat.
Proof.
  induction tr as [|[] tr IH]; simpl; rewrite ?IH; reflexivity.
Qed.

Section Properties.

Context {DT : DateTime} {JS : JsonText} {OS : Platform}.
Variable cfg : config.

Lemma isoformat_truthy (t : Z) : String.eqb (isoformat t) "" = false.
Proof. apply String.eqb_neq, isoformat_nonempty. Qed.

(** ** The range of [timedelta] *)

Lemma timedelta_in_range_bounds (n : Z) :
  timedelta_in_range n = true <-> -86399999913600 <= n < 86400000000000.
Proof.
  unfold timedelta_in_range. rewrite andb_true_iff, !Z.leb_le.
  pose proof (Z.mul_div_le n 86400 ltac:(lia)) as Hlo.
  pose proof (Z.mul_succ_div_gt n 86400 ltac:(lia)) as Hhi.
  split; intros [H1 H2]; split; lia.
Qed.

Lemma timedelta_out_of_range (n : Z) :
  timedelta_in_range n = false <->
  ~ (-86399999913600 <= n < 86400000000000).
Proof.
  rewrite <- timedelta_in_range_bounds.
  destruct (timedelta_in_range n).
  - split; [discriminate | intros H; now contradiction H].
  - split; [intros _ H; discriminate | reflexivity].
Qed.

(** ** The policy on a ledger *)

Lemma should_send_alert_ledger (l : Ledger) (is_up : bool) (cooldown : Z)
  (w : world) :
  sm_state w = dict_of_ledger l ->
  should_send_alert is_up cooldown w =
    (if reads_clock l is_up && negb (timedelta_in_range cooldown)
     then Raise OverflowError
     else Ok (alerts (policy l is_up cooldown (clock w (ticks w)))),
     set_ticks (policy_ticks l is_up + ticks w) w).
Proof.
  intros H. destruct w; simpl in H; subst.
  destruct l as [c s a n u].
  destruct is_up, s as [[|]|], a as [t|]; try reflexivity.
  unfold should_send_alert, bind, state_get, policy, policy_ticks,
    reads_clock. simpl.
  rewrite isoformat_truthy. simpl.
  rewrite fromisoformat_isoformat. simpl.
  unfold lift, timedelta.
  destruct (timedelta_in_range cooldown); simpl;
    [destruct (_ >? _); reflexivity | reflexivity].
Qed.

Lemma decide_ledger (l : Ledger) (is_up : bool) (w : world) :
  sm_state w = dict_of_ledger l ->
  decide cfg is_up w =
    (if cooldown_ok cfg l is_up
     then Ok (policy l is_up (alert_cooldown cfg) (clock w (ticks w)))
     else Raise OverflowError,
     set_ticks (policy_ticks l is_up + ticks w) w).
Proof.
  intros H. unfold decide, cooldown_ok.
  unfold bind at 1. rewrite (should_send_alert_ledger l is_up _ w H).
  destruct w; simpl in H; subst.
  destruct l as [c s a n u].
  destruct is_up, s as [[|]|], a as [t|]; try reflexivity.
  unfold policy, policy_ticks, reads_clock. simpl.
  destruct (timedelta_in_range (alert_cooldown cfg)); simpl;
    [destruct (_ >? _); reflexivity | reflexivity].
Qed.

(** Where the policy does not read the clock it returns, whatever the
    cooldown. *)
Lemma cooldown_ok_no_clock (l : Ledger) (is_up : bool) :
  reads_clock l is_up = false -> cooldown_ok cfg l is_up = true.
Proof. intros H. unfold cooldown_ok. now rewrite H. Qed.

Lemma cooldown_ok_in_range (l : Ledger) (is_up : bool) :
  timedelta_in_range (alert_cooldown cfg) = true ->
  cooldown_ok cfg l is_up = true.
Proof. intros H. unfold cooldown_ok. rewrite H. apply orb_true_r. Qed.

(** A cooldown that [timedelta] refuses is met on a ledger that is down
    with an alert time, by a down observation. *)
Lemma cooldown_not_ok (l : Ledger) (is_up : bool) :
  cooldown_ok cfg l is_up = false ->
  is_up = false /\ last_status l = Some false /\
  (exists t, last_alert_time l = Some t) /\
  timedelta_in_range (alert_cooldown cfg) = false.
Proof.
  unfold cooldown_ok, reads_clock. destruct l as [c s a n u]. cbn.
  destruct is_up, s as [[|]|], a as [t|]; cbn; try discriminate.
  intros H. repeat split; try assumption. now exists t.
Qed.

(** ** The update of the ledger *)

Lemma update_state_ledger (l : Ledger) (status alert_sent : bool) (w : world) :
  sm_state w = dict_of_ledger l ->
  update_state status alert_sent w =
    save_state
      (set_sm_state
         (dict_of_ledger (updated l status alert_sent (clock w) (ticks w)))
         (set_ticks (update_ticks status alert_sent + ticks w) w)).
Proof.
  intros H. destruct w; simpl in H; subst.
  destruct l as [c s a n u].
  destruct status, alert_sent; reflexivity.
Qed.

(** What [save_state] does, by the medium. *)
Lemma save_state_eq (w : world) :
  save_state w =
    match disk w with
    | Writable =>
        (Ok tt, set_state_file (Some (Document (dumps (sm_state w)))) w)
    | DiskFull => (Raise OSError, set_state_file (Some Garbage) w)
    | ReadOnly | NoAccess | NoDirectory => (Raise OSError, w)
    end.
Proof. reflexivity. Qed.

(** ** The dispatcher *)

Lemma sleep_ok (d : Z) (w : world) :
  0 <= d <= sleep_limit -> sleep d w = (Ok tt, emit (EvSleep d) w).
Proof.
  intros [H0 H1]. unfold sleep.
  pose proof sleep_limit_range as [_ Hmax]. unfold sleep_max in *.
  repeat match goal with
         | |- context [?a <? ?b] =>
             destruct (Z.ltb_spec a b); cbn [orb]; try lia
         end.
  reflexivity.
Qed.

(** [time.sleep(60)], the wait of the loop's handler. *)
Lemma sleep_60 (w : world) : sleep 60 w = (Ok tt, emit (EvSleep 60) w).
Proof. apply sleep_ok. pose proof sleep_limit_range. lia. Qed.

(** A sleep returns and leaves its event, or raises and leaves nothing. *)
Lemma sleep_cases (d : Z) (w : world) :
  sleep d w = (Ok tt, emit (EvSleep d) w) \/
  exists e, sleep d w = (Raise e, w).
Proof.
  unfold sleep.
  destruct ((d <? - sleep_max) || (sleep_max <? d)); [right; now eexists|].
  destruct (d <? 0); [right; now eexists|].
  destruct (sleep_limit <? d); [right; now eexists | now left].
Qed.

(** One failed attempt that is not the last one: session, log line, sleep. *)
Lemma send_attempts_failed_round (subject : string) (remaining : nat)
  (attempt : Z) (e : exn) (w : world) :
  0 <= retry_delay cfg * 2 ^ attempt <= sleep_limit ->
  attempt < retry_attempts cfg - 1 ->
  smtp w (smtp_calls w) = Some e ->
  send_attempts cfg subject (S remaining) attempt w =
    send_attempts cfg subject remaining (attempt + 1)
      (set_trace
         (trace w ++ [EvSmtp subject;
                      EvLog ERROR (MsgEmailAttemptFailed (attempt + 1) e);
                      EvSleep (retry_delay cfg * 2 ^ attempt)])
         (set_smtp_calls (S (smtp_calls w)) w)).
Proof.
  intros Hd Hlt He.
  cbn [send_attempts]. unfold bind at 1. unfold try_except.
  unfold bind at 1. unfold smtp_session. rewrite He.
  unfold bind at 1. unfold log at 1.
  apply Z.ltb_lt in Hlt. rewrite Hlt.
  unfold bind at 1. rewrite sleep_ok by assumption.
  destruct w; unfold ret, emit, set_trace, set_smtp_calls; simpl.
  rewrite <- !app_assoc. reflexivity.
Qed.

(** The last attempt of the range fails: session and log line, no sleep. *)
Lemma send_attempts_last_failed (subject : string) (remaining : nat)
  (attempt : Z) (e : exn) (w : world) :
  ~ attempt < retry_attempts cfg - 1 ->
  smtp w (smtp_calls w) = Some e ->
  send_attempts cfg subject (S remaining) attempt w =
    send_attempts cfg subject remaining (attempt + 1)
      (set_trace
         (trace w ++ [EvSmtp subject;
                      EvLog ERROR (MsgEmailAttemptFailed (attempt + 1) e)])
         (set_smtp_calls (S (smtp_calls w)) w)).
Proof.
  intros Hlt He.
  cbn [send_attempts]. unfold bind at 1. unfold try_except.
  unfold bind at 1. unfold smtp_session. rewrite He.
  unfold bind at 1. unfold log at 1.
  apply Z.ltb_nlt in Hlt. rewrite Hlt.
  destruct w; unfold bind, ret, emit, set_trace, set_smtp_calls; simpl.
  rewrite <- !app_assoc. reflexivity.
Qed.

(** An attempt succeeds: session, log line, [return True]. *)
Lemma send_attempts_delivered (subject : string) (remaining : nat)
  (attempt : Z) (w : world) :
  smtp w (smtp_calls w) = None ->
  send_attempts cfg subject (S remaining) attempt w =
    (Ok true,
     set_trace
       (trace w ++ [EvSmtp subject; EvLog INFO (MsgEmailSent subject)])
       (set_smtp_calls (S (smtp_calls w)) w)).
Proof.
  intros He.
  cbn [send_attempts]. unfold bind at 1. unfold try_except.
  unfold bind at 1. unfold smtp_session. rewrite He.
  destruct w; unfold bind, log, ret, emit, set_trace, set_smtp_calls; simpl.
  rewrite <- !app_assoc. reflexivity.
Qed.




(** With every backoff delay taken, the dispatcher returns, whatever the
    transport does, and [True] only after a session that delivered. *)
Lemma send_attempts_returns (subject : string) :
  forall (remaining : nat) (attempt : Z) (w : world),
    backoff_ok cfg -> 0 <= attempt ->
    exists (b : bool) (tr : list event) (n : nat),
      send_attempts cfg subject remaining attempt w =
        (Ok b, set_trace tr (set_smtp_calls n w)) /\
      (b = true ->
       exists i, (i < remaining)%nat /\
                 smtp w (smtp_calls w + i)%nat = None) /\
      (smtp_calls w <= n <= smtp_calls w + remaining)%nat.
Proof.
  induction remaining as [|remaining IH]; intros attempt w Hd Ha.
  - exists false, (trace w), (smtp_calls w). repeat split.
    + destruct w; reflexivity.
    + discriminate.
    + lia.
    + lia.
  - destruct (smtp w (smtp_calls w)) as [e|] eqn:He.
    + destruct (Z.lt_ge_cases attempt (retry_attempts cfg - 1)) as [Hlt|Hge].
      * rewrite send_attempts_failed_round with (e := e);
          [|apply Hd; lia|assumption|assumption].
        match goal with
        | |- context [send_attempts _ _ _ _ ?w1] =>
            destruct (IH (attempt + 1) w1 Hd ltac:(lia))
              as (b & tr & n & E & Hb & Hn)
        end.
        exists b, tr, n. repeat split.
        -- rewrite E. destruct w; reflexivity.
        -- intros Hbt. destruct (Hb Hbt) as (i & Hlti & Hi).
           exists (S i). destruct w; simpl in *.
           split; [lia | now rewrite Nat.add_succ_r].
        -- destruct w; simpl in *; lia.
        -- destruct w; simpl in *; lia.
      * rewrite send_attempts_last_failed with (e := e) by (assumption || lia).
        match goal with
        | |- context [send_attempts _ _ _ _ ?w1] =>
            destruct (IH (attempt + 1) w1 Hd ltac:(lia))
              as (b & tr & n & E & Hb & Hn)
        end.
        exists b, tr, n. repeat split.
        -- rewrite E. destruct w; reflexivity.
        -- intros Hbt. destruct (Hb Hbt) as (i & Hlti & Hi).
           exists (S i). destruct w; simpl in *.
           split; [lia | now rewrite Nat.add_succ_r].
        -- destruct w; simpl in *; lia.
        -- destruct w; simpl in *; lia.
    + rewrite send_attempts_delivered by assumption.
      eexists true, _, _. repeat split.
      * intros _. exists O. split; [lia | now rewrite Nat.add_0_r].
      * destruct w; simpl; lia.
      * destruct w; simpl; lia.
Qed.

Lemma send_email_alert_returns (subject body_text body_html : string)
  (w : world) :
  dispatch_returns cfg w ->
  exists (b : bool) (tr : list event) (n : nat),
    send_email_alert cfg subject body_text body_html w =
      (Ok b, set_trace tr (set_smtp_calls n w)) /\
    (smtp_calls w <= n)%nat /\
    (b = true ->
     dry_run cfg = true \/
     exists i, (i < Z.to_nat (retry_attempts cfg))%nat /\
               smtp w (smtp_calls w + i)%nat = None) /\
    (dry_run cfg = true ->
     b = true /\ n = smtp_calls w /\
     tr = trace w ++ [EvLog INFO (MsgDryRunEmail subject)]) /\
    (dry_run cfg = false ->
     (0 < Z.to_nat (retry_attempts cfg))%nat ->
     smtp w (smtp_calls w) = None -> b = true).
Proof.
  intros H. unfold send_email_alert.
  destruct (dry_run cfg) eqn:Hdry.
  - exists true, (trace w ++ [EvLog INFO (MsgDryRunEmail subject)]),
      (smtp_calls w).
    split; [destruct w; reflexivity|].
    split; [lia|]. split; auto.
  - destruct H as [H|[H|[Hatt Hnone]]]; [congruence| |].
    + remember (Z.to_nat (retry_attempts cfg)) as N eqn:HN.
      destruct (send_attempts_returns subject N 0 w H ltac:(lia))
        as (b & tr & n & E & Hb & Hn).
      exists b, tr, n.
      split; [assumption|]. split; [lia|].
      split; [auto|]. split; [discriminate|].
      intros _ Hpos Hnone. destruct N as [|N]; [lia|].
      rewrite send_attempts_delivered in E by assumption.
      now injection E.
    + destruct (Z.to_nat (retry_attempts cfg)) as [|N] eqn:HN; [lia|].
      rewrite send_attempts_delivered by assumption.
      eexists true, _, _. split; [reflexivity|].
      split; [destruct w; simpl; lia|].
      split; [intros _; right; exists O; split;
              [lia | now rewrite Nat.add_0_r]|].
      split; [discriminate | reflexivity].
Qed.

Lemma should_send_alert_ok (l : Ledger) (is_up : bool) (cooldown : Z)
  (w : world) :
  sm_state w = dict_of_ledger l ->
  negb (reads_clock l is_up) || timedelta_in_range cooldown = true ->
  should_send_alert is_up cooldown w =
    (Ok (alerts (policy l is_up cooldown (clock w (ticks w)))),
     set_ticks (policy_ticks l is_up + ticks w) w).
Proof.
  intros H Hc. rewrite (should_send_alert_ledger l is_up cooldown w H).
  destruct (reads_clock l is_up), (timedelta_in_range cooldown);
    try reflexivity; discriminate.
Qed.

(** ** The other steps of a cycle *)

Lemma check_service_status_eq (name : string) (w : world) :
  check_service_status name w =
    (Ok (probe_active (systemctl w (probes w)),
         probe_status (systemctl w (probes w))),
     set_trace (trace w ++ [probe_event name (systemctl w (probes w))])
       (set_probes (S (probes w)) w)).
Proof.
  unfold check_service_status, bind.
  destruct (systemctl w (probes w)); destruct w; reflexivity.
Qed.

Lemma create_alert_content_eq (name status : string) (is_recovery : bool)
  (w : world) :
  create_alert_content name status is_recovery w =
    (Ok (alert_subject name (hostname w) is_recovery,
         fst (bodies w is_recovery status (clock w (ticks w))),
         snd (bodies w is_recovery status (clock w (ticks w)))),
     set_ticks (S (ticks w)) w).
Proof. destruct w; reflexivity. Qed.

Lemma send_webhook_alert_returns (name : string) (is_active : bool)
  (status : string) (w : world) :
  exists (tr : list event) (k q : nat),
    send_webhook_alert cfg name is_active status w =
      (Ok tt, set_trace tr (set_posts q (set_ticks k w))) /\
    (ticks w <= k)%nat /\
    (dry_run cfg = true -> k = ticks w) /\
    sleeps tr = sleeps (trace w) /\ sessions tr = sessions (trace w).
Proof.
  unfold send_webhook_alert.
  destruct (dry_run cfg).
  - exists (trace w ++ [EvLog INFO MsgDryRunWebhook]), (ticks w), (posts w).
    split; [destruct w; reflexivity|].
    split; [lia|]. split; [reflexivity|].
    now rewrite sleeps_app, sessions_app, app_nil_r, Nat.add_0_r.
  - unfold try_except, bind, now, log.
    assert (Hfin : forall (m : message) (lv : level),
               let tr := trace w ++ [EvPost (webhook_url cfg); EvLog lv m] in
               (ticks w <= S (ticks w))%nat /\
               (false = true -> S (ticks w) = ticks w) /\
               sleeps tr = sleeps (trace w) /\
               sessions tr = sessions (trace w)).
    { intros m lv tr. subst tr. split; [lia|]. split; [discriminate|].
      now rewrite sleeps_app, sessions_app, app_nil_r, Nat.add_0_r. }
    destruct (requests_post w (posts w)) as [code|e] eqn:E;
      [destruct (code =? 200) eqn:E200|];
      eexists _, (S (ticks w)), (S (posts w));
      (split; [|eapply Hfin]);
      destruct w; simpl in *; rewrite E; simpl; rewrite ?E200;
      unfold log, emit; simpl; rewrite <- app_assoc; reflexivity.
Qed.

Lemma is_recovery_of_ledger (l : Ledger) (is_up : bool) (w : world) :
  sm_state w = dict_of_ledger l ->
  is_recovery_of is_up w =
    (Ok (is_up && is_False (json_of_status (last_status l))), w).
Proof.
  intros H. destruct w; simpl in H; subst.
  destruct is_up; reflexivity.
Qed.

(** ** One cycle *)

(** The steps of [run_check] before the policy is consulted. *)
Lemma run_check_start (w : world) :
  run_check cfg w =
    (let p := systemctl w (probes w) in
     should_alert <- should_send_alert (probe_active p) (alert_cooldown cfg) ;;
     (if should_alert then
        is_recovery <- is_recovery_of (probe_active p) ;;
        alert <- create_alert_content (service_name cfg) (probe_status p)
                   is_recovery ;;
        email_sent <- send_email_alert cfg (fst (fst alert)) (snd (fst alert))
                        (snd alert) ;;
        (if email_sent then ret tt else log ERROR MsgEmailGaveUp) ;;
        (if enable_webhooks cfg && truthy (JStr (webhook_url cfg))
         then send_webhook_alert cfg (service_name cfg) (probe_active p)
                (probe_status p)
         else ret tt) ;;
        update_state (probe_active p) email_sent
      else update_state (probe_active p) false) ;;
     log INFO (MsgCheckComplete (service_name cfg) (probe_status p)
                 should_alert))%py
      (set_trace
         (trace w ++ [EvLog DEBUG (MsgStartingCheck (service_name cfg));
                      probe_event (service_name cfg)
                        (systemctl w (probes w))])
         (set_probes (S (probes w)) w)).
Proof.
  unfold run_check.
  erewrite bind_ok by reflexivity.
  erewrite bind_ok by apply check_service_status_eq.
  destruct w; wsimpl. cbn [fst snd]. rewrite <- app_assoc. reflexivity.
Qed.

(** A cycle on a ledger, when its policy and its dispatcher return. *)
Lemma run_check_ledger (l : Ledger) (w : world) :
  sm_state w = dict_of_ledger l ->
  dispatch_returns cfg w ->
  cooldown_ok cfg l (probe_active (systemctl w (probes w))) = true ->
  let p := systemctl w (probes w) in
  let up := probe_active p in
  let d := policy l up (alert_cooldown cfg) (clock w (ticks w)) in
  exists (sent : bool) (k n q : nat) (tr : list event),
    let l' := updated l up sent (clock w) k in
    let w1 :=
      set_trace tr
        (set_posts q
           (set_smtp_calls n
              (set_ticks (update_ticks up sent + k)
                 (set_probes (S (probes w))
                    (set_sm_state (dict_of_ledger l') w))))) in
    run_check cfg w =
      match disk w with
      | Writable =>
          (Ok tt,
           emit (EvLog INFO (MsgCheckComplete (service_name cfg)
                               (probe_status p) (alerts d)))
             (set_state_file
                (Some (Document (dumps (dict_of_ledger l')))) w1))
      | DiskFull => (Raise OSError, set_state_file (Some Garbage) w1)
      | ReadOnly | NoAccess | NoDirectory => (Raise OSError, w1)
      end /\
    (ticks w <= k)%nat /\
    (smtp_calls w <= n)%nat /\
    (sent = true ->
     alerts d = true /\
     (dry_run cfg = true \/
      exists i, (i < Z.to_nat (retry_attempts cfg))%nat /\
                smtp w (smtp_calls w + i)%nat = None)) /\
    (alerts d = true -> dry_run cfg = true ->
     sent = true /\ n = smtp_calls w /\
     sleeps tr = sleeps (trace w) /\ sessions tr = sessions (trace w)) /\
    (alerts d = true ->
     dry_run cfg = true \/
     enable_webhooks cfg && truthy (JStr (webhook_url cfg)) = false ->
     k = S (policy_ticks l up + ticks w)) /\
    (alerts d = true -> dry_run cfg = false ->
     (0 < Z.to_nat (retry_attempts cfg))%nat ->
     smtp w (smtp_calls w) = None -> sent = true).
Proof.
  intros H Hcfg Hcool. destruct w; wsimpl_in H; subst. intros p up d.
  wsimpl_in p. wsimpl_in d.
  match goal with
  | |- context [run_check cfg ?w0] => remember (run_check cfg w0) as R eqn:HR
  end.
  unfold run_check in HR.
  erewrite bind_ok in HR by reflexivity.
  erewrite bind_ok in HR by apply check_service_status_eq.
  wsimpl_in HR. cbn [fst snd] in HR. fold p in HR. fold up in HR.
  erewrite bind_ok in HR
    by (apply should_send_alert_ok with (l := l);
        [reflexivity | exact Hcool]).
  wsimpl_in HR. fold d in HR.
  destruct (alerts d) eqn:Hd.
  - unfold bind at 1 in HR.
    erewrite bind_ok in HR
      by (apply is_recovery_of_ledger with (l := l); reflexivity).
    erewrite bind_ok in HR by apply create_alert_content_eq.
    wsimpl_in HR. cbn [fst snd] in HR.
    match type of HR with
    | context [bind (send_email_alert cfg ?s ?t ?h) _ ?w0] =>
        destruct (send_email_alert_returns s t h w0 Hcfg)
          as (b & tr & n & E & Hn & Hb & Hdry & Hfirst);
        rewrite (bind_ok _ _ _ _ _ E) in HR; clear E
    end.
    wsimpl_in HR. wsimpl_in Hb. wsimpl_in Hdry. wsimpl_in Hn.
    wsimpl_in Hfirst.
    assert (Hgave : exists tr1,
               forall w0,
                 (if b then ret tt else log ERROR MsgEmailGaveUp) w0 =
                   (Ok tt, set_trace (trace w0 ++ tr1) w0) /\
                 sleeps tr1 = [] /\ sessions tr1 = O).
    { destruct b.
      - exists []. intros w0. rewrite app_nil_r.
        destruct w0; repeat split.
      - exists [EvLog ERROR MsgEmailGaveUp]. intros w0.
        destruct w0; repeat split. }
    destruct Hgave as (tr1 & Hgave).
    match type of HR with
    | context [bind (if b then _ else _) _ ?w0] =>
        destruct (Hgave w0) as (E & Hs1 & Hn1);
        rewrite (bind_ok _ _ _ _ _ E) in HR; clear E Hgave
    end.
    wsimpl_in HR.
    match type of HR with
    | context [bind (if ?c then ?A else ?B) _ ?w0] =>
        assert (Hwh : exists (tr2 : list event) (k2 q2 : nat),
                   (if c then A else B) w0 =
                     (Ok tt, set_trace tr2 (set_posts q2 (set_ticks k2 w0))) /\
                   (ticks w0 <= k2)%nat /\
                   (dry_run cfg = true \/ c = false -> k2 = ticks w0) /\
                   sleeps tr2 = sleeps (trace w0) /\
                   sessions tr2 = sessions (trace w0))
          by (destruct c;
              [ destruct (send_webhook_alert_returns (service_name cfg) up
                            (probe_status p) w0)
                  as (tr2 & k2 & q2 & E2 & Hk & Hkd & Hs & Hn');
                exists tr2, k2, q2;
                split; [exact E2|]; split; [exact Hk|];
                split; [intros [Hdr|Hc]; [now apply Hkd | discriminate]|];
                split; assumption
              | exists (trace w0), (ticks w0), (posts w0);
                split; [reflexivity|]; split; [lia|];
                split; [reflexivity|]; split; reflexivity ]);
        destruct Hwh as (tr2 & k2 & q2 & E & Hk2 & Hk2' & Hs2 & Hn2);
        rewrite (bind_ok _ _ _ _ _ E) in HR; clear E
    end.
    wsimpl_in HR. wsimpl_in Hk2. wsimpl_in Hk2'. wsimpl_in Hs2. wsimpl_in Hn2.
    match type of HR with
    | context [update_state up b ?w0] =>
        rewrite (update_state_ledger l up b w0 eq_refl) in HR
    end.
    unfold save_state, json_dump, log in HR. wsimpl_in HR.
    subst R. exists b, k2, n, q2, tr2. wsimpl.
    split; [destruct disk0; reflexivity|].
    split; [lia|]. split; [assumption|].
    split; [|split; [|split]].
    + intros Hsent. split; [reflexivity|]. apply Hb, Hsent.
    + intros _ Hdr. destruct (Hdry Hdr) as (Hb1 & Hn1' & Htr).
      subst tr. split; [assumption|]. split; [assumption|].
      rewrite Hs2, Hn2, !sleeps_app, !sessions_app, Hs1, Hn1,
        sleeps_probe_event, sessions_probe_event.
      simpl. rewrite !app_nil_r, !Nat.add_0_r. split; reflexivity.
    + intros _ Hk. now apply Hk2'.
    + intros _ Hreal Hpos Hnone. now apply Hfirst.
  - unfold bind in HR.
    match type of HR with
    | context [update_state up false ?w0] =>
        rewrite (update_state_ledger l up false w0 eq_refl) in HR
    end.
    unfold save_state, json_dump, log in HR. wsimpl_in HR.
    subst R.
    eexists false, _, smtp_calls0, _, _. wsimpl.
    split; [destruct disk0; reflexivity|].
    split; [lia|]. split; [lia|].
    repeat split; discriminate.
Qed.

(** A cycle whose policy meets a cooldown that [timedelta] refuses: the
    [OverflowError] leaves [should_send_alert] and [run_check] after the
    probe and one reading of the clock, before anything is sent or
    stored. *)
Lemma run_check_overflow (l : Ledger) (w : world) :
  sm_state w = dict_of_ledger l ->
  cooldown_ok cfg l (probe_active (systemctl w (probes w))) = false ->
  run_check cfg w =
    (Raise OverflowError,
     set_trace
       (trace w ++ [EvLog DEBUG (MsgStartingCheck (service_name cfg));
                    probe_event (service_name cfg) (systemctl w (probes w))])
       (set_ticks (S (ticks w)) (set_probes (S (probes w)) w))).
Proof.
  intros H Hc. rewrite run_check_start. cbv zeta.
  unfold bind at 1. unfold bind at 1.
  erewrite should_send_alert_ledger by (destruct w; exact H).
  unfold cooldown_ok in Hc.
  apply orb_false_iff in Hc as [Hr Hi].
  apply negb_false_iff in Hr.
  unfold policy_ticks. rewrite Hr, Hi. cbn [andb negb].
  destruct w; reflexivity.
Qed.



(** [save_state] does not touch the ledger in memory. *)
Lemma save_state_keeps_state (w : world) :
  sm_state (snd (save_state w)) = sm_state w.
Proof.
  unfold save_state, json_dump. destruct w; wsimpl.
  destruct disk0; reflexivity.
Qed.


(** ** Cycles whose save fails *)

Lemma update_state_save_fails (l : Ledger) (status alert_sent : bool)
  (w : world) :
  sm_state w = dict_of_ledger l ->
  disk w <> Writable ->
  fst (update_state status alert_sent w) = Raise OSError.
Proof.
  intros H Hdisk. rewrite (update_state_ledger l status alert_sent w H).
  rewrite save_state_eq. destruct w; wsimpl. wsimpl_in Hdisk.
  destruct disk0; [contradiction | | | |]; reflexivity.
Qed.

Lemma run_check_save_fails (l : Ledger) (w : world) :
  dispatch_returns cfg w ->
  cooldown_ok cfg l (probe_active (systemctl w (probes w))) = true ->
  sm_state w = dict_of_ledger l ->
  disk w <> Writable ->
  exists (l1 : Ledger) (w1 : world),
    run_check cfg w = (Raise OSError, w1) /\
    sm_state w1 = dict_of_ledger l1 /\
    disk w1 = disk w.
Proof.
  intros Hcfg Hcool H Hdisk.
  destruct (run_check_ledger l w H Hcfg Hcool)
    as (sent & k & n & q & tr & E & _).
  exists (updated l (probe_active (systemctl w (probes w))) sent (clock w) k).
  rewrite E. destruct w; wsimpl. wsimpl_in Hdisk.
  destruct disk0; [contradiction | | | |];
    eexists; (split; [reflexivity|]); wsimpl; split; reflexivity.
Qed.

(** An iteration of the loop whose cycle raises: the handler logs the
    exception, sleeps 60 seconds, and the loop goes on. *)
Lemma monitoring_loop_handles (n : nat) (e : exn) (w w1 : world) :
  run_check cfg w = (Raise e, w1) ->
  monitoring_loop cfg (S n) w =
    monitoring_loop cfg n
      (set_trace (trace w1 ++ [EvLog ERROR (MsgUnexpected e); EvSleep 60]) w1).
Proof.
  intros E. cbn [monitoring_loop].
  unfold bind at 1. unfold try_except.
  rewrite (bind_raise _ _ _ _ _ E).
  unfold bind, log. rewrite sleep_60.
  destruct w1; wsimpl. rewrite <- app_assoc. reflexivity.
Qed.

(** Whatever a cycle does, an iteration of the loop ends normally. *)
Lemma monitoring_loop_returns (n : nat) :
  forall w : world, exists w' : world, monitoring_loop cfg n w = (Ok tt, w').
Proof.
  induction n as [|n IH]; intros w.
  - now exists w.
  - cbn [monitoring_loop]. unfold bind at 1. unfold try_except.
    destruct ((run_check cfg ;; sleep (check_interval cfg))%py w)
      as [[u|e] w1].
    + cbv beta iota. apply IH.
    + cbv beta iota. unfold bind at 1. unfold log at 1.
      rewrite sleep_60. apply IH.
Qed.

(** ** Loading the state *)

Lemma _load_state_cases (w : world) :
  _load_state w =
    match disk w with
    | NoAccess => (Raise OSError, w)
    | NoDirectory => (Ok default_state, w)
    | _ =>
        match state_file w with
        | Some (Document text) =>
            if readable w then
              match loads text with
              | Some d => (Ok d, w)
              | None => (Ok default_state, w)
              end
            else (Ok default_state, w)
        | _ => (Ok default_state, w)
        end
    end.
Proof.
  unfold _load_state, bind, try_except, path_exists, json_load, ret.
  destruct w. wsimpl.
  destruct disk0, state_file0 as [[|text]|], readable0; cbv beta iota;
    try reflexivity; destruct (loads text); reflexivity.
Qed.

Lemma _load_state_returns (w : world) :
  disk w <> NoAccess -> exists d : json, _load_state w = (Ok d, w).
Proof.
  intros Hd. rewrite _load_state_cases.
  destruct (disk w); try contradiction;
    try (eexists; reflexivity);
    destruct (state_file w) as [[|text]|]; try (eexists; reflexivity);
    destruct (readable w); try (eexists; reflexivity);
    destruct (loads text); eexists; reflexivity.
Qed.



Lemma set_ticks_same (w : world) : set_ticks (0 + ticks w) w = w.
Proof. destruct w; reflexivity. Qed.

(** ** Start-up *)

(** [main] past a start-up that goes through. *)
Lemma main_started (boot : startup) (config : config)
  (args_dry_run args_once : bool) (cycles : nat) (w : world) (d : json) :
  new_config boot = Ok config ->
  new_logger boot = Ok tt ->
  disk w <> NoDirectory ->
  _load_state w = (Ok d, w) ->
  main boot args_dry_run args_once cycles w =
    match (if args_once
           then run_check (effective_config args_dry_run config)
           else monitoring_loop (effective_config args_dry_run config) cycles)
            (emit (EvLog INFO MsgStarting) (set_sm_state d w)) with
    | (Ok _, w') => (if args_once then Returned else Running, w')
    | (Raise e, w') => (Exit 1, emit (EvStderr (MsgFatal e)) w')
    end.
Proof.
  intros Hc Hl Hd E. unfold main.
  unfold bind at 1. unfold lift at 1. rewrite Hc. cbv beta iota zeta.
  unfold bind at 1. unfold lift at 1. rewrite Hl. cbv beta iota.
  unfold StateManager_init.
  unfold bind at 1. unfold bind at 1.
  assert (Hmk : mkdir_parents w = (Ok tt, w))
    by (unfold mkdir_parents; destruct (disk w); try reflexivity;
        now contradiction Hd).
  rewrite Hmk. cbv beta iota.
  unfold bind at 1. rewrite E. cbv beta iota.
  unfold bind at 1. unfold log at 1. reflexivity.
Qed.


(** * The claims *)

(** C1, as the code has it. On a ledger whose last status is down and whose
    [last_alert_time] is absent, a down observation is Suppressed: the guard
    [if self.state['last_alert_time']] skips the cooldown comparison and the
    function falls through to [return False]. The clock is not read and the
    world is left as it was. *)
Theorem missing_alert_time_suppressed (l : Ledger) (w : world) :
  last_status l = Some false ->
  last_alert_time l = None ->
  sm_state w = dict_of_ledger l ->
  decide cfg false w = (Ok Suppressed, w).
Proof.
  intros Hs Ha H.
  rewrite (decide_ledger l false w H).
  unfold cooldown_ok, policy, policy_ticks, reads_clock. rewrite Hs, Ha.
  cbn [negb orb]. now rewrite set_ticks_same.
Qed.

(** C2, as the code has it. On a ledger whose last status is down and whose
    [last_alert_time] is the instant [t], a down observation made when the
    clock reads [n] compares [n - t] with [timedelta(seconds=cooldown)].
    When the cooldown is one that a [timedelta] can hold, the decision is
    RaiseFailure exactly when [n - t] exceeds it and Suppressed exactly when
    [n - t] is at most it; at the boundary it is Suppressed. When it is not,
    there is no decision: [should_send_alert] raises [OverflowError]. *)
Theorem cooldown_is_strict (l : Ledger) (t : Z) (w : world) :
  last_status l = Some false ->
  last_alert_time l = Some t ->
  sm_state w = dict_of_ledger l ->
  let n := clock w (ticks w) in
  let cooldown := timedelta_seconds (alert_cooldown cfg) in
  (-86399999913600 <= alert_cooldown cfg < 86400000000000 ->
   (fst (decide cfg false w) = Ok RaiseFailure <-> n - t > cooldown) /\
   (fst (decide cfg false w) = Ok Suppressed <-> n - t <= cooldown) /\
   (n - t = cooldown -> fst (decide cfg false w) = Ok Suppressed)) /\
  (~ -86399999913600 <= alert_cooldown cfg < 86400000000000 ->
   fst (decide cfg false w) = Raise OverflowError).
Proof.
  intros Hs Ha H n cooldown.
  rewrite (decide_ledger l false w H). cbn [fst].
  unfold cooldown_ok, reads_clock, policy. rewrite Hs, Ha. cbn [negb orb].
  fold n. fold cooldown.
  split.
  - intros Hin. apply timedelta_in_range_bounds in Hin. rewrite Hin.
    destruct (n - t >? cooldown) eqn:E.
    + apply Z.gtb_lt in E.
      repeat split; intros; try discriminate; try lia; reflexivity.
    + assert (n - t <= cooldown)
        by (destruct (Z.le_gt_cases (n - t) cooldown) as [Hle|Hgt];
            [assumption | apply Z.gtb_lt in Hgt; congruence]).
      repeat split; intros; try discriminate; try lia; reflexivity.
  - intros Hout. apply timedelta_out_of_range in Hout. now rewrite Hout.
Qed.

(** C3. An up observation on a ledger whose last status is down is
    RaiseRecovery, whatever the alert time and the cooldown; an up
    observation on any other ledger is Suppressed; and whenever the decision
    is RaiseRecovery, on any state at all, the observation was up and the
    stored [last_status] is [False]. *)
Theorem recovery_only_after_down :
  (forall (l : Ledger) (w : world),
      last_status l = Some false ->
      sm_state w = dict_of_ledger l ->
      decide cfg true w = (Ok RaiseRecovery, w)) /\
  (forall (l : Ledger) (w : world),
      last_status l <> Some false ->
      sm_state w = dict_of_ledger l ->
      decide cfg true w = (Ok Suppressed, w)) /\
  (forall (is_up : bool) (w : world),
      fst (decide cfg is_up w) = Ok RaiseRecovery ->
      is_up = true /\ getitem (sm_state w) "last_status" = Ok (JBool false)).
Proof.
  split; [|split].
  - intros l w Hs H. rewrite (decide_ledger l true w H).
    unfold cooldown_ok, policy, policy_ticks, reads_clock. rewrite Hs.
    cbn [negb orb]. now rewrite set_ticks_same.
  - intros l w Hs H. rewrite (decide_ledger l true w H).
    unfold cooldown_ok, policy, policy_ticks, reads_clock.
    cbn [negb orb]. rewrite set_ticks_same.
    destruct (last_status l) as [[|]|]; try reflexivity.
    now contradiction Hs.
  - intros is_up w. unfold decide. destruct is_up.
    + unfold should_send_alert, is_recovery_of, bind, state_get, ret.
      destruct (getitem (sm_state w) "last_status") as [v|e] eqn:E;
        cbn [fst]; [|discriminate].
      destruct v as [|[|]| | | | |]; cbn [is_False fst decision];
        try discriminate.
      intros _. split; reflexivity.
    + unfold bind at 1.
      destruct (should_send_alert false (alert_cooldown cfg) w)
        as [[[|]|e] w1]; cbn; discriminate.
Qed.



(** C6, as the code has it. [_load_state] leaves the world as it was, so it
    writes no log line. It raises when the existence check itself fails
    ([Path.exists()] stands outside the [try] and re-raises a
    [PermissionError]). Otherwise it returns: the zero-value ledger when the
    file is missing, cannot be opened, or holds no JSON text; and whatever
    [json.load] makes of the text when it holds one, whatever its shape. *)
Theorem load_falls_back (w : world) :
  snd (_load_state w) = w /\
  (disk w = NoAccess -> fst (_load_state w) = Raise OSError) /\
  (disk w <> NoAccess ->
   exists d : json,
     fst (_load_state w) = Ok d /\
     (state_file w = None \/ disk w = NoDirectory \/ readable w = false \/
      state_file w = Some Garbage \/
      (exists text, state_file w = Some (Document text) /\
                    loads text = None) ->
      d = dict_of_ledger zero_ledger) /\
     (forall (text : string) (doc : json),
         disk w <> NoDirectory -> readable w = true ->
         state_file w = Some (Document text) -> loads text = Some doc ->
         d = doc)).
Proof.
  rewrite _load_state_cases.
  split; [|split].
  - destruct (disk w); try reflexivity;
      destruct (state_file w) as [[|text]|]; try reflexivity;
      destruct (readable w); try reflexivity;
      destruct (loads text); reflexivity.
  - intros ->. reflexivity.
  - intros Hd.
    destruct (disk w) eqn:Edisk; try (now contradiction Hd);
      try (exists default_state; split; [reflexivity|];
           split; [reflexivity | intros text doc Hn; now contradiction Hn]);
      (destruct (state_file w) as [[|text]|] eqn:Efile;
       [ exists default_state; split; [reflexivity|];
         split; [reflexivity | intros text doc _ _ Hf; discriminate]
       | destruct (readable w) eqn:Eread;
         [ destruct (loads text) as [doc|] eqn:Eloads;
           [ exists doc; split; [reflexivity|]; split;
             [ intros [Hf|[Hf|[Hf|[Hf|(text' & Hf & Hl)]]]];
               try discriminate; congruence
             | intros text' doc' _ _ Hf Hl; congruence ]
           | exists default_state; split; [reflexivity|]; split;
             [ reflexivity | intros text' doc' _ _ Hf Hl; congruence ] ]
         | exists default_state; split; [reflexivity|]; split;
           [ reflexivity | intros text' doc' _ Hr; discriminate ] ]
       | exists default_state; split; [reflexivity|];
         split; [reflexivity | intros text doc _ _ Hf; discriminate] ]).
Qed.


(** C9. [update_state] takes a ledger that satisfies the invariant to one
    that satisfies it: an up cycle stores status up, a failure count of 0
    and the time of the success; a down cycle stores status down and adds
    exactly 1 to the failure count. This holds for the ledger in memory
    whether or not the save that ends the update succeeds. *)
Theorem update_state_keeps_invariant (l : Ledger) (status alert_sent : bool)
  (w : world) :
  sm_state w = dict_of_ledger l ->
  ledger_inv l ->
  exists l' : Ledger,
    sm_state (snd (update_state status alert_sent w)) = dict_of_ledger l' /\
    ledger_inv l' /\
    last_status l' = Some status /\
    (status = true ->
     consecutive_failures l' = 0 /\
     last_success_time l' = Some (clock w (S (ticks w)))) /\
    (status = false ->
     consecutive_failures l' = consecutive_failures l + 1 /\
     last_success_time l' = last_success_time l).
Proof.
  intros H [Hnn Hup].
  exists (updated l status alert_sent (clock w) (ticks w)).
  split.
  - rewrite (update_state_ledger l status alert_sent w H).
    rewrite save_state_keeps_state. destruct w; reflexivity.
  - unfold ledger_inv, updated. cbn.
    destruct status; repeat split; try discriminate; try lia.
Qed.

(** C7, as the code has it. A save that fails raises [OSError] out of
    [update_state], and out of the [run_check] that reached it. In
    continuous mode the handler of the loop catches it, logs it, sleeps 60
    seconds and the loop goes on, for as many cycles as one follows. In
    single-shot mode it reaches the handler of [main], which prints it and
    exits with status 1. *)
Theorem save_failure_by_mode (boot : startup) (l : Ledger) (w : world)
  (cycles : nat) :
  new_config boot = Ok cfg ->
  new_logger boot = Ok tt ->
  disk w = ReadOnly \/ disk w = DiskFull ->
  fst (_load_state w) = Ok (dict_of_ledger l) ->
  (forall (l0 : Ledger) (status alert_sent : bool) (w0 : world),
      sm_state w0 = dict_of_ledger l0 ->
      disk w0 <> Writable ->
      fst (update_state status alert_sent w0) = Raise OSError) /\
  (forall (l0 : Ledger) (w0 : world) (n : nat),
      sm_state w0 = dict_of_ledger l0 ->
      disk w0 <> Writable ->
      dispatch_returns cfg w0 ->
      cooldown_ok cfg l0 (probe_active (systemctl w0 (probes w0))) = true ->
      exists w1 : world,
        run_check cfg w0 = (Raise OSError, w1) /\
        monitoring_loop cfg (S n) w0 =
          monitoring_loop cfg n
            (set_trace
               (trace w1 ++ [EvLog ERROR (MsgUnexpected OSError); EvSleep 60])
               w1)) /\
  fst (main boot false false cycles w) = Running /\
  (dispatch_returns cfg w ->
   cooldown_ok cfg l (probe_active (systemctl w (probes w))) = true ->
   exists w' : world,
     main boot false true cycles w =
       (Exit 1, emit (EvStderr (MsgFatal OSError)) w')).
Proof.
  intros Hboot Hlog Hdisk Hload.
  assert (Hna : disk w <> NoAccess)
    by (destruct Hdisk as [-> | ->]; discriminate).
  assert (Hnd : disk w <> NoDirectory)
    by (destruct Hdisk as [-> | ->]; discriminate).
  assert (Hnw : disk w <> Writable)
    by (destruct Hdisk as [-> | ->]; discriminate).
  destruct (_load_state_returns w Hna) as (d & E).
  rewrite E in Hload. cbn [fst] in Hload. injection Hload as ->.
  split; [|split; [|split]].
  - intros l0 status alert_sent w0. apply update_state_save_fails.
  - intros l0 w0 n H0 Hd0 Hret Hcool.
    destruct (run_check_save_fails l0 w0 Hret Hcool H0 Hd0)
      as (l1 & w1 & E1 & _).
    exists w1. split; [assumption|].
    now apply monitoring_loop_handles.
  - rewrite (main_started boot cfg false false cycles w _ Hboot Hlog Hnd E).
    unfold effective_config.
    match goal with
    | |- context [monitoring_loop cfg cycles ?w0] =>
        destruct (monitoring_loop_returns cycles w0) as (w' & E')
    end.
    rewrite E'. reflexivity.
  - intros Hret Hcool.
    rewrite (main_started boot cfg false true cycles w _ Hboot Hlog Hnd E).
    unfold effective_config.
    match goal with
    | |- context [run_check cfg ?w0] =>
        destruct (run_check_save_fails l w0) as (l1 & w1 & E1 & _)
    end.
    + destruct w; exact Hret.
    + destruct w; exact Hcool.
    + destruct w; reflexivity.
    + destruct w; exact Hnw.
    + rewrite E1. now exists w1.
Qed.

End Properties.

Section DryRun.

Context {DT : DateTime} {JS : JsonText} {OS : Platform}.



End DryRun.

(** * Further properties of the cycle and of the two modes *)

Section Cycles.

Context {DT : DateTime} {JS : JsonText} {OS : Platform}.
Variable cfg : config.

(** The policy raises what reading [last_status] raises, before anything
    else happens. *)
Lemma should_send_alert_unreadable (is_up : bool) (cooldown : Z) (w : world)
  (e : exn) :
  getitem (sm_state w) "last_status" = Raise e ->
  should_send_alert is_up cooldown w = (Raise e, w).
Proof.
  intros H. unfold should_send_alert, bind, state_get.
  destruct is_up; rewrite H; reflexivity.
Qed.

Lemma run_check_unreadable (w : world) (e : exn) :
  getitem (sm_state w) "last_status" = Raise e ->
  run_check cfg w =
    (Raise e,
     set_trace
       (trace w ++ [EvLog DEBUG (MsgStartingCheck (service_name cfg));
                    probe_event (service_name cfg) (systemctl w (probes w))])
       (set_probes (S (probes w)) w)).
Proof.
  intros H. rewrite run_check_start. cbv zeta.
  unfold bind at 1. unfold bind at 1.
  rewrite should_send_alert_unreadable with (e := e); [reflexivity|].
  destruct w; exact H.
Qed.

(** X1. A state that has no readable [last_status] (a state file that holds
    [{}], a list, a number) stops every cycle at the policy: the cycle
    raises, nothing is sent, and the state is not repaired, so the next
    cycle meets it again. In continuous mode the monitor runs on, blind. *)
Theorem unreadable_state_blinds_monitor (w : world) (e : exn) (n : nat) :
  getitem (sm_state w) "last_status" = Raise e ->
  (exists w1 : world, run_check cfg w = (Raise e, w1)) /\
  exists w' : world,
    monitoring_loop cfg n w = (Ok tt, w') /\
    sm_state w' = sm_state w /\
    state_file w' = state_file w /\
    smtp_calls w' = smtp_calls w /\
    posts w' = posts w /\
    sessions (trace w') = sessions (trace w).
Proof.
  intros H. split.
  - eexists. now apply run_check_unreadable.
  - revert w H. induction n as [|n IH]; intros w H.
    + exists w. repeat split.
    + rewrite (monitoring_loop_handles cfg n e w _
                 (run_check_unreadable w e H)).
      match goal with
      | |- context [monitoring_loop cfg n ?w0] =>
          destruct (IH w0) as (w' & E & Hs & Hf & Hc & Hp & Hn)
      end.
      { destruct w; exact H. }
      exists w'. split; [exact E|].
      destruct w; wsimpl_in Hs; wsimpl_in Hf; wsimpl_in Hc; wsimpl_in Hp;
        wsimpl_in Hn; wsimpl.
      repeat split; try assumption.
      rewrite Hn, !sessions_app.
      destruct (systemctl0 probes0); cbn; lia.
Qed.


(** A cycle whose decision is Suppressed, step by step. *)
Lemma run_check_suppressed (l : Ledger) (w : world) :
  sm_state w = dict_of_ledger l ->
  let p := systemctl w (probes w) in
  let up := probe_active p in
  cooldown_ok cfg l up = true ->
  policy l up (alert_cooldown cfg) (clock w (ticks w)) = Suppressed ->
  let k := (policy_ticks l up + ticks w)%nat in
  let l' := updated l up false (clock w) k in
  let w1 :=
    set_trace
      (trace w ++ [EvLog DEBUG (MsgStartingCheck (service_name cfg));
                   probe_event (service_name cfg) p])
      (set_ticks (update_ticks up false + k)
         (set_probes (S (probes w))
            (set_sm_state (dict_of_ledger l') w))) in
  run_check cfg w =
    match disk w with
    | Writable =>
        (Ok tt,
         emit (EvLog INFO (MsgCheckComplete (service_name cfg)
                             (probe_status p) false))
           (set_state_file (Some (Document (dumps (dict_of_ledger l')))) w1))
    | DiskFull => (Raise OSError, set_state_file (Some Garbage) w1)
    | ReadOnly | NoAccess | NoDirectory => (Raise OSError, w1)
    end.
Proof.
  intros H p up Hc Hd k l' w1. subst w1 l' k.
  rewrite run_check_start. cbv zeta. fold p. fold up.
  destruct w; wsimpl_in H; subst. wsimpl. wsimpl_in p. wsimpl_in Hd.
  erewrite bind_ok
    by (apply should_send_alert_ok with (l := l); [reflexivity | exact Hc]).
  wsimpl. rewrite Hd. cbn [alerts]. unfold bind.
  match goal with
  | |- context [update_state up false ?w0] =>
      rewrite (update_state_ledger l up false w0 eq_refl)
  end.
  unfold save_state, json_dump, log. wsimpl.
  destruct disk0; reflexivity.
Qed.

(** What a cycle leaves of the counters when the policy stops at a cooldown
    that [timedelta] refuses. *)
Lemma run_check_overflow_silent (l : Ledger) (w : world) :
  sm_state w = dict_of_ledger l ->
  cooldown_ok cfg l (probe_active (systemctl w (probes w))) = false ->
  sm_state (snd (run_check cfg w)) = dict_of_ledger l /\
  smtp_calls (snd (run_check cfg w)) = smtp_calls w /\
  posts (snd (run_check cfg w)) = posts w /\
  sessions (trace (snd (run_check cfg w))) = sessions (trace w) /\
  sleeps (trace (snd (run_check cfg w))) = sleeps (trace w).
Proof.
  intros H Hc. rewrite (run_check_overflow cfg l w H Hc).
  destruct w; wsimpl. cbn [snd]. wsimpl. wsimpl_in H.
  rewrite sessions_app, sleeps_app.
  destruct (systemctl0 probes0); cbn;
    rewrite ?app_nil_r, ?Nat.add_0_r; repeat split; assumption.
Qed.

Lemma suppressed_cycle_is_silent_aux (l : Ledger) (w : world) :
  sm_state w = dict_of_ledger l ->
  policy l (probe_active (systemctl w (probes w))) (alert_cooldown cfg)
    (clock w (ticks w)) = Suppressed ->
  smtp_calls (snd (run_check cfg w)) = smtp_calls w /\
  posts (snd (run_check cfg w)) = posts w /\
  sessions (trace (snd (run_check cfg w))) = sessions (trace w).
Proof.
  intros H Hd.
  destruct (cooldown_ok cfg l (probe_active (systemctl w (probes w))))
    eqn:Hc.
  - rewrite (run_check_suppressed l w H Hc Hd).
    destruct w; wsimpl.
    destruct disk0; cbn [snd]; wsimpl;
      rewrite ?sessions_app;
      destruct (systemctl0 probes0); cbn;
      rewrite ?Nat.add_0_r; repeat split; reflexivity.
  - destruct (run_check_overflow_silent l w H Hc) as (_ & Hn & Hp & Hs & _).
    repeat split; assumption.
Qed.

(** X3. A cycle whose decision is Suppressed opens no SMTP session, posts no
    webhook and sleeps nowhere, and the ledger it leaves in memory keeps the
    [last_alert_time] it had. When the service is up and was up, the failure
    count it leaves is 0. *)
Theorem suppressed_cycle_is_silent (l : Ledger) (w : world) :
  sm_state w = dict_of_ledger l ->
  policy l (probe_active (systemctl w (probes w))) (alert_cooldown cfg)
    (clock w (ticks w)) = Suppressed ->
  exists l' : Ledger,
    sm_state (snd (run_check cfg w)) = dict_of_ledger l' /\
    last_alert_time l' = last_alert_time l /\
    (probe_active (systemctl w (probes w)) = true ->
     consecutive_failures l' = 0) /\
    smtp_calls (snd (run_check cfg w)) = smtp_calls w /\
    posts (snd (run_check cfg w)) = posts w /\
    sessions (trace (snd (run_check cfg w))) = sessions (trace w) /\
    sleeps (trace (snd (run_check cfg w))) = sleeps (trace w).
Proof.
  intros H Hd.
  destruct (cooldown_ok cfg l (probe_active (systemctl w (probes w))))
    eqn:Hc.
  - rewrite (run_check_suppressed l w H Hc Hd).
    exists (updated l (probe_active (systemctl w (probes w))) false (clock w)
              (policy_ticks l (probe_active (systemctl w (probes w)))
               + ticks w)).
    split; [|split; [|split]].
    + destruct w; wsimpl. destruct disk0; reflexivity.
    + reflexivity.
    + intros Hup. cbn. now rewrite Hup.
    + destruct w; wsimpl.
      destruct disk0; cbn [snd]; wsimpl;
        rewrite ?sessions_app, ?sleeps_app;
        destruct (systemctl0 probes0); cbn;
        rewrite ?app_nil_r, ?Nat.add_0_r; repeat split; reflexivity.
  - destruct (run_check_overflow_silent l w H Hc)
      as (Hst & Hn & Hp & Hs & Hsl).
    exists l. split; [exact Hst|]. split; [reflexivity|].
    split; [|repeat split; assumption].
    intros Hup. destruct (cooldown_not_ok cfg l _ Hc) as (Hdown & _).
    congruence.
Qed.

(** X6. Every change of status alerts, whatever the cooldown and however
    recent the last alert: after an up cycle the next down observation is
    RaiseFailure, and after a down cycle the next up observation is
    RaiseRecovery, also when the failure itself was never reported. The
    cooldown only spaces the alerts of one uninterrupted outage. *)
Theorem status_change_always_alerts (l : Ledger) (alert_sent : bool)
  (w w2 : world) :
  sm_state w = dict_of_ledger l ->
  (sm_state w2 = sm_state (snd (update_state true alert_sent w)) ->
   decide cfg false w2 = (Ok RaiseFailure, w2)) /\
  (sm_state w2 = sm_state (snd (update_state false alert_sent w)) ->
   decide cfg true w2 = (Ok RaiseRecovery, w2)).
Proof.
  intros H. split; intros H2;
    rewrite (update_state_ledger l _ alert_sent w H) in H2;
    rewrite save_state_keeps_state in H2;
    match type of H2 with
    | _ = sm_state (set_sm_state (dict_of_ledger ?l2) _) =>
        assert (H2' : sm_state w2 = dict_of_ledger l2)
          by (rewrite H2; destruct w; reflexivity);
        rewrite (decide_ledger cfg l2 _ w2 H2')
    end;
    unfold cooldown_ok, policy, policy_ticks, reads_clock, updated; cbn;
    destruct w2; reflexivity.
Qed.

(** X4. Once a cycle has delivered a failure alert, a later cycle that finds
    the service still down within the cooldown of that alert opens no SMTP
    session and posts no webhook. *)
Theorem delivered_alert_starts_cooldown (l : Ledger) (w : world) :
  sm_state w = dict_of_ledger l ->
  dry_run cfg = false ->
  0 < retry_attempts cfg ->
  smtp w (smtp_calls w) = None ->
  probe_active (systemctl w (probes w)) = false ->
  policy l false (alert_cooldown cfg) (clock w (ticks w)) = RaiseFailure ->
  exists (l1 : Ledger) (t : Z),
    sm_state (snd (run_check cfg w)) = dict_of_ledger l1 /\
    last_status l1 = Some false /\
    last_alert_time l1 = Some t /\
    forall w1 : world,
      sm_state w1 = sm_state (snd (run_check cfg w)) ->
      probe_active (systemctl w1 (probes w1)) = false ->
      clock w1 (ticks w1) - t <= timedelta_seconds (alert_cooldown cfg) ->
      smtp_calls (snd (run_check cfg w1)) = smtp_calls w1 /\
      posts (snd (run_check cfg w1)) = posts w1 /\
      sessions (trace (snd (run_check cfg w1))) = sessions (trace w1).
Proof.
  intros H Hdry Hatt Hnone Hdown Hpol.
  assert (Hlater : forall (l1 : Ledger) (t : Z),
             last_status l1 = Some false ->
             last_alert_time l1 = Some t ->
             sm_state (snd (run_check cfg w)) = dict_of_ledger l1 ->
             forall w1 : world,
               sm_state w1 = sm_state (snd (run_check cfg w)) ->
               probe_active (systemctl w1 (probes w1)) = false ->
               clock w1 (ticks w1) - t <=
                 timedelta_seconds (alert_cooldown cfg) ->
               smtp_calls (snd (run_check cfg w1)) = smtp_calls w1 /\
               posts (snd (run_check cfg w1)) = posts w1 /\
               sessions (trace (snd (run_check cfg w1))) =
                 sessions (trace w1)).
  { intros l1 t Hst Hat Hs w1 H1 Hdown1 Hcool. rewrite Hs in H1.
    apply (suppressed_cycle_is_silent_aux l1 w1 H1).
    rewrite Hdown1. unfold policy. rewrite Hst, Hat.
    destruct (_ >? _) eqn:Egt; [|reflexivity].
    apply Z.gtb_lt in Egt. lia. }
  destruct (cooldown_ok cfg l (probe_active (systemctl w (probes w))))
    eqn:Hc.
  - destruct (run_check_ledger cfg l w H
                (or_intror (or_intror (conj Hatt Hnone))) Hc)
      as (sent & k & n & q & tr & E & _ & _ & _ & _ & _ & Hfirst).
    rewrite Hdown in E, Hfirst. rewrite Hpol in Hfirst.
    rewrite (Hfirst eq_refl Hdry ltac:(lia) Hnone) in E. clear Hfirst.
    exists (updated l false true (clock w) k), (clock w (S k)).
    assert (Hs : sm_state (snd (run_check cfg w)) =
                 dict_of_ledger (updated l false true (clock w) k))
      by (rewrite E; destruct w; wsimpl; destruct disk0; reflexivity).
    split; [exact Hs|]. split; [reflexivity|]. split; [reflexivity|].
    exact (Hlater (updated l false true (clock w) k) (clock w (S k))
             eq_refl eq_refl Hs).
  - destruct (cooldown_not_ok cfg l _ Hc) as (_ & Hst & (t & Hat) & _).
    destruct (run_check_overflow_silent l w H Hc) as (Hs & _).
    exists l, t. split; [exact Hs|]. split; [exact Hst|].
    split; [exact Hat|]. exact (Hlater l t Hst Hat Hs).
Qed.

(** The ledger-independent conditions under which every cycle runs through
    its policy and its dispatcher. *)
Lemma dispatch_returns_always (w : world) :
  dry_run cfg = true \/ backoff_ok cfg -> dispatch_returns cfg w.
Proof. intros [H|H]; [now left | right; now left]. Qed.


(** What one iteration of the loop does to a ledger, whatever the disk and
    the check interval are. *)
Lemma loop_iteration_ledger (l : Ledger) (w : world) :
  sm_state w = dict_of_ledger l ->
  dry_run cfg = true \/ backoff_ok cfg ->
  timedelta_in_range (alert_cooldown cfg) = true ->
  exists (sent : bool) (k : nat) (w2 : world),
    (forall n, monitoring_loop cfg (S n) w = monitoring_loop cfg n w2) /\
    sm_state w2 =
      dict_of_ledger
        (updated l (probe_active (systemctl w (probes w))) sent (clock w) k) /\
    systemctl w2 = systemctl w.
Proof.
  intros H Hcfg Hcool.
  destruct (run_check_ledger cfg l w H (dispatch_returns_always w Hcfg)
              (cooldown_ok_in_range cfg l _ Hcool))
    as (sent & k & n & q & tr & E & _).
  exists sent, k.
  assert (Hiter : forall (r : result unit) (w1 : world),
             run_check cfg w = (r, w1) ->
             exists w2 : world,
               (forall m, monitoring_loop cfg (S m) w =
                          monitoring_loop cfg m w2) /\
               sm_state w2 = sm_state w1 /\ systemctl w2 = systemctl w1).
  { intros r w1 E1. destruct r as [u|e].
    - destruct (sleep_cases (check_interval cfg) w1) as [Hs|(e & Hs)].
      + eexists. split.
        * intros m. cbn [monitoring_loop].
          unfold bind at 1. unfold try_except.
          rewrite (bind_ok _ _ _ _ _ E1). rewrite Hs. reflexivity.
        * destruct w1; split; reflexivity.
      + eexists. split.
        * intros m. cbn [monitoring_loop].
          unfold bind at 1. unfold try_except.
          rewrite (bind_ok _ _ _ _ _ E1). rewrite Hs.
          unfold bind at 1. unfold log at 1. rewrite sleep_60.
          reflexivity.
        * destruct w1; split; reflexivity.
    - eexists. split.
      + intros m. apply monitoring_loop_handles. exact E1.
      + destruct w1; split; reflexivity. }
  destruct (run_check cfg w) as [r w1] eqn:E1.
  destruct (Hiter r w1 eq_refl) as (w2 & Hloop & Hs & Hp).
  exists w2. split; [exact Hloop|].
  rewrite Hs, Hp. destruct w; wsimpl_in E.
  destruct disk0; injection E as -> ->; split; reflexivity.
Qed.

(** X7. [consecutive_failures] counts the cycles of an outage. Let the
    cooldown be one that a [timedelta] holds, and the dry-run flag be set or
    every backoff delay be a length that [time.sleep] takes, so that every
    cycle reaches its update. Then after [n] iterations of the loop that all
    find the service down, the count has grown by exactly [n], whether or
    not the alerts went out and whether or not the ledger could be saved;
    and after iterations that all find it up, it is 0. *)
Theorem failure_count_follows_loop (n : nat) :
  forall (l : Ledger) (w : world),
    sm_state w = dict_of_ledger l ->
    dry_run cfg = true \/ backoff_ok cfg ->
    -86399999913600 <= alert_cooldown cfg < 86400000000000 ->
    exists l' : Ledger,
      sm_state (snd (monitoring_loop cfg n w)) = dict_of_ledger l' /\
      ((forall i, probe_active (systemctl w i) = false) ->
       consecutive_failures l' = consecutive_failures l + Z.of_nat n) /\
      ((forall i, probe_active (systemctl w i) = true) ->
       (0 < n)%nat -> consecutive_failures l' = 0).
Proof.
  induction n as [|n IH]; intros l w H Hcfg Hcool.
  - exists l. split; [exact H|]. split; intros; lia.
  - destruct (loop_iteration_ledger l w H Hcfg
                (proj2 (timedelta_in_range_bounds _) Hcool))
      as (sent & k & w2 & Hloop & Hs & Hp).
    rewrite Hloop.
    destruct (IH _ w2 Hs Hcfg Hcool) as (l' & Hs' & Hdown & Hup).
    exists l'. split; [exact Hs'|]. split.
    + intros Hall. rewrite Hp in Hdown. rewrite (Hdown Hall).
      rewrite (Hall (probes w)). cbn. lia.
    + intros Hall _. destruct n as [|n].
      * cbn in Hs'. rewrite Hs in Hs'.
        rewrite (Hall (probes w)) in Hs'.
        apply (f_equal (fun d => field d "consecutive_failures")) in Hs'.
        cbn in Hs'. injection Hs' as Hs'. symmetry. exact Hs'.
      * rewrite Hp in Hup. apply Hup; [exact Hall | lia].
Qed.

(** X8. The webhook is best effort: [send_webhook_alert] returns normally
    whether the POST answers 200, answers anything else or raises; it posts
    at most once, opens no SMTP session, never sleeps, and touches neither
    the ledger in memory nor the state file. In dry-run mode it posts
    nothing and does not read the clock. *)
Theorem webhook_is_best_effort (name : string) (is_active : bool)
  (status : string) (w : world) :
  exists w' : world,
    send_webhook_alert cfg name is_active status w = (Ok tt, w') /\
    sm_state w' = sm_state w /\
    state_file w' = state_file w /\
    smtp_calls w' = smtp_calls w /\
    (posts w' <= S (posts w))%nat /\
    sleeps (trace w') = sleeps (trace w) /\
    (dry_run cfg = true -> posts w' = posts w /\ ticks w' = ticks w).
Proof.
  unfold send_webhook_alert.
  destruct (dry_run cfg).
  - eexists. split; [reflexivity|].
    destruct w; unfold log; wsimpl.
    rewrite sleeps_app, app_nil_r.
    repeat split; try reflexivity. lia.
  - unfold try_except, bind, now, log.
    destruct w; wsimpl.
    destruct (requests_post0 posts0) as [code|e];
      [destruct (code =? 200)|];
      eexists; (split; [reflexivity|]); wsimpl;
      rewrite !sleeps_app, !app_nil_r;
      (repeat split; try reflexivity; try lia; try discriminate).
Qed.

End Cycles.

(** * The validation of the configuration *)

(** ** Regular expressions: the matcher decides the language *)

Lemma append_empty (u v : string) :
  (u ++ v)%string = "" -> u = "" /\ v = "".
Proof. destruct u; [now split | discriminate]. Qed.

Lemma append_assoc_s (u v w : string) :
  ((u ++ v) ++ w)%string = (u ++ (v ++ w))%string.
Proof. induction u as [|c u IH]; simpl; [reflexivity | now rewrite IH]. Qed.

Lemma append_empty_r (u : string) : (u ++ "")%string = u.
Proof. induction u as [|c u IH]; simpl; [reflexivity | now rewrite IH]. Qed.

Lemma nullable_lang (r : regex) : nullable r = true <-> lang r "".
Proof.
  split.
  - induction r; simpl; intros H; try discriminate.
    + constructor.
    + apply andb_true_iff in H as [H1 H2].
      change "" with ("" ++ "")%string. constructor; auto.
    + apply orb_true_iff in H as [H|H];
        [apply lang_alt_l | apply lang_alt_r]; auto.
    + constructor.
  - intros H. remember "" as s eqn:Es.
    induction H; simpl; try reflexivity; try discriminate.
    + apply append_empty in Es as [-> ->].
      rewrite IHlang1, IHlang2; reflexivity.
    + rewrite IHlang by assumption. reflexivity.
    + rewrite IHlang by assumption. apply orb_true_r.
Qed.

(** A non-empty string of [r*] starts with a non-empty string of [r]. *)
Lemma lang_star_head (r : regex) (c : ascii) (s : string) :
  lang (Star r) (String c s) ->
  exists u v, s = (u ++ v)%string /\ lang r (String c u) /\ lang (Star r) v.
Proof.
  intros H. remember (Star r) as r' eqn:Er. remember (String c s) as w eqn:Ew.
  induction H; try discriminate.
  injection Er as ->.
  destruct u as [|c' u].
  - simpl in Ew. now apply IHlang2.
  - simpl in Ew. injection Ew as Ec Es. subst c' s. now exists u, v.
Qed.

Lemma deriv_lang (r : regex) :
  forall (c : ascii) (s : string), lang (deriv c r) s <-> lang r (String c s).
Proof.
  induction r as [| |p|r1 IH1 r2 IH2|r1 IH1 r2 IH2|r IH]; intros c s; simpl.
  - split; intros H; inversion H.
  - split; intros H; inversion H.
  - destruct (p c) eqn:Ep; split; intros H; inversion H; subst.
    + now constructor.
    + constructor.
    + congruence.
  - split; intros H.
    + inversion H as [| | | ? ? ? H1 | ? ? ? H1 | |]; subst.
      * inversion H1; subst.
        change (String c (u ++ v)) with (String c u ++ v)%string.
        constructor; [now apply IH1 | assumption].
      * destruct (nullable r1) eqn:En; [|inversion H1].
        change (String c s) with ("" ++ String c s)%string.
        constructor; [now apply nullable_lang | now apply IH2].
    + inversion H as [| |? ? u v H1 H2 | | | |]; subst.
      destruct u as [|c' u].
      * simpl in *. subst v. apply lang_alt_r.
        apply nullable_lang in H1. rewrite H1. now apply IH2.
      * simpl in *. match goal with E : String _ _ = String _ _ |- _ =>
                                      injection E as Ec Es end.
        subst c' s. apply lang_alt_l. constructor; [now apply IH1 | assumption].
  - split; intros H.
    + inversion H; subst;
        [apply lang_alt_l; now apply IH1 | apply lang_alt_r; now apply IH2].
    + inversion H; subst;
        [apply lang_alt_l; now apply IH1 | apply lang_alt_r; now apply IH2].
  - split; intros H.
    + inversion H; subst.
      change (String c (u ++ v)) with (String c u ++ v)%string.
      constructor; [now apply IH | assumption].
    + apply lang_star_head in H as (u & v & -> & H1 & H2).
      constructor; [now apply IH | assumption].
Qed.

Lemma matches_lang (s : string) :
  forall r : regex, matches r s = true <-> lang r s.
Proof.
  induction s as [|c s IH]; intros r; simpl.
  - apply nullable_lang.
  - rewrite IH. apply deriv_lang.
Qed.

Lemma lang_cat_iff (r s : regex) (w : string) :
  lang (Cat r s) w <->
  exists u v, w = (u ++ v)%string /\ lang r u /\ lang s v.
Proof.
  split.
  - intros H. inversion H; subst. now exists u, v.
  - intros (u & v & -> & Hu & Hv). now constructor.
Qed.

Lemma lang_class_iff (p : ascii -> bool) (w : string) :
  lang (Class p) w <-> exists c, w = String c "" /\ p c = true.
Proof.
  split.
  - intros H. inversion H; subst. now exists c.
  - intros (c & -> & Hc). now constructor.
Qed.

Lemma lang_char_iff (c : ascii) (w : string) :
  lang (Class (Ascii.eqb c)) w <-> w = String c "".
Proof.
  rewrite lang_class_iff. split.
  - intros (c' & -> & Hc). apply Ascii.eqb_eq in Hc. now subst.
  - intros ->. exists c. split; [reflexivity | apply Ascii.eqb_refl].
Qed.

Lemma lang_star_class (p : ascii -> bool) (s : string) :
  lang (Star (Class p)) s <-> all_chars p s = true.
Proof.
  split.
  - intros H. remember (Star (Class p)) as r eqn:Er.
    induction H; try discriminate; [reflexivity|].
    injection Er as ->.
    inversion H; subst. simpl.
    rewrite IHlang2 by reflexivity.
    match goal with Hp : p _ = true |- _ => now rewrite Hp end.
  - induction s as [|c s IH]; simpl; intros H.
    + constructor.
    + apply andb_true_iff in H as [Hc Hs].
      change (String c s) with (String c "" ++ s)%string.
      constructor; [now constructor | now apply IH].
Qed.

Lemma lang_plus_class (p : ascii -> bool) (s : string) :
  lang (plus (Class p)) s <-> s <> "" /\ all_chars p s = true.
Proof.
  unfold plus. rewrite lang_cat_iff. split.
  - intros (u & v & -> & Hu & Hv).
    apply lang_class_iff in Hu as (c & -> & Hc).
    apply lang_star_class in Hv. simpl. rewrite Hc, Hv.
    split; [discriminate | reflexivity].
  - intros [Hne Hall]. destruct s as [|c s]; [contradiction|].
    simpl in Hall. apply andb_true_iff in Hall as [Hc Hs].
    exists (String c ""), s. split; [reflexivity|].
    split; [now constructor | now apply lang_star_class].
Qed.

Lemma lang_two_or_more (p : ascii -> bool) (s : string) :
  lang (Cat (Class p) (Cat (Class p) (Star (Class p)))) s <->
  (2 <= String.length s)%nat /\ all_chars p s = true.
Proof.
  rewrite lang_cat_iff. split.
  - intros (u & v & -> & Hu & Hv).
    apply lang_class_iff in Hu as (a & -> & Ha).
    apply lang_cat_iff in Hv as (u' & v' & -> & Hu' & Hv').
    apply lang_class_iff in Hu' as (b & -> & Hb).
    apply lang_star_class in Hv'. simpl. rewrite Ha, Hb, Hv'.
    split; [lia | reflexivity].
  - intros [Hlen Hall]. destruct s as [|a [|b s]]; simpl in Hlen; try lia.
    simpl in Hall.
    apply andb_true_iff in Hall as [Ha Hall].
    apply andb_true_iff in Hall as [Hb Hs].
    exists (String a ""), (String b s). split; [reflexivity|].
    split; [now constructor|].
    apply lang_cat_iff. exists (String b ""), s. split; [reflexivity|].
    split; [now constructor | now apply lang_star_class].
Qed.

Lemma lang_optional_newline (s : string) :
  lang (Alt Eps (Class (Ascii.eqb newline))) s <->
  s = "" \/ s = String newline "".
Proof.
  split.
  - intros H. inversion H; subst.
    + left. match goal with H' : lang Eps _ |- _ => now inversion H' end.
    + right. now apply lang_char_iff.
  - intros [-> | ->].
    + apply lang_alt_l. constructor.
    + apply lang_alt_r. now apply lang_char_iff.
Qed.

Lemma email_pattern_lang (s : string) :
  lang email_pattern s <->
  exists local domain tld nl : string,
    s = (local ++ "@" ++ domain ++ "." ++ tld ++ nl)%string /\
    local <> "" /\ all_chars local_char local = true /\
    domain <> "" /\ all_chars domain_char domain = true /\
    (2 <= String.length tld)%nat /\ all_chars alpha tld = true /\
    (nl = "" \/ nl = String newline "").
Proof.
  unfold email_pattern.
  split.
  - intros H.
    apply lang_cat_iff in H as (local & r1 & -> & Hl & H).
    apply lang_cat_iff in H as (at_ & r2 & -> & Ha & H).
    apply lang_cat_iff in H as (domain & r3 & -> & Hd & H).
    apply lang_cat_iff in H as (dot & r4 & -> & Hdot & H).
    apply lang_cat_iff in H as (tld & nl & -> & Ht & Hn).
    apply lang_plus_class in Hl as [Hl1 Hl2].
    apply lang_char_iff in Ha as ->.
    apply lang_plus_class in Hd as [Hd1 Hd2].
    apply lang_char_iff in Hdot as ->.
    apply lang_two_or_more in Ht as [Ht1 Ht2].
    apply lang_optional_newline in Hn.
    exists local, domain, tld, nl. repeat split; assumption.
  - intros (local & domain & tld & nl & -> & Hl1 & Hl2 & Hd1 & Hd2 & Ht1
            & Ht2 & Hn).
    apply lang_cat_iff. exists local, ("@" ++ domain ++ "." ++ tld ++ nl)%string.
    split; [reflexivity|]. split; [now apply lang_plus_class|].
    apply lang_cat_iff. exists "@"%string, (domain ++ "." ++ tld ++ nl)%string.
    split; [reflexivity|]. split; [now apply lang_char_iff|].
    apply lang_cat_iff. exists domain, ("." ++ tld ++ nl)%string.
    split; [reflexivity|]. split; [now apply lang_plus_class|].
    apply lang_cat_iff. exists "."%string, (tld ++ nl)%string.
    split; [reflexivity|]. split; [now apply lang_char_iff|].
    apply lang_cat_iff. exists tld, nl.
    split; [reflexivity|]. split; [now apply lang_two_or_more|].
    now apply lang_optional_newline.
Qed.

Lemma email_match_shape (s : string) :
  email_match s = true ->
  exists local domain tld nl : string,
    s = (local ++ "@" ++ domain ++ "." ++ tld ++ nl)%string /\
    local <> "" /\ all_chars local_char local = true /\
    domain <> "" /\ all_chars domain_char domain = true /\
    (2 <= String.length tld)%nat /\ all_chars alpha tld = true /\
    (nl = "" \/ nl = String newline "").
Proof.
  intros H. apply email_pattern_lang. apply matches_lang. exact H.
Qed.

(** X9. What [email_pattern] accepts: a non-empty local part of letters,
    digits and [._%+-], one [@], a non-empty domain of letters, digits, dots
    and hyphens, a dot, at least two letters, and then nothing, or a single
    newline (the [$] of the pattern lets it through). *)
Theorem email_shape (s : string) :
  email_match s = true <->
  exists local domain tld nl : string,
    s = (local ++ "@" ++ domain ++ "." ++ tld ++ nl)%string /\
    local <> "" /\ all_chars local_char local = true /\
    domain <> "" /\ all_chars domain_char domain = true /\
    (2 <= String.length tld)%nat /\ all_chars alpha tld = true /\
    (nl = "" \/ nl = String newline "").
Proof.
  unfold email_match. rewrite matches_lang. apply email_pattern_lang.
Qed.

Lemma occurrences_app (c : ascii) (u v : string) :
  occurrences c (u ++ v) = (occurrences c u + occurrences c v)%nat.
Proof.
  induction u as [|a u IH]; simpl; [reflexivity|]. rewrite IH. lia.
Qed.

Lemma occurrences_none (p : ascii -> bool) (c : ascii) (s : string) :
  p c = false -> all_chars p s = true -> occurrences c s = O.
Proof.
  intros Hc. induction s as [|a s IH]; simpl; [reflexivity|].
  intros H. apply andb_true_iff in H as [Ha Hs].
  destruct (Ascii.eqb c a) eqn:E.
  - apply Ascii.eqb_eq in E. subst a. congruence.
  - now rewrite IH.
Qed.

Lemma email_match_one_at (s : string) :
  email_match s = true -> occurrences "@" s = 1%nat.
Proof.
  intros H. apply email_match_shape in H
    as (local & domain & tld & nl & -> & _ & Hl & _ & Hd & _ & Ht & Hn).
  rewrite !occurrences_app.
  rewrite (occurrences_none local_char "@" local eq_refl Hl).
  rewrite (occurrences_none domain_char "@" domain eq_refl Hd).
  rewrite (occurrences_none alpha "@" tld eq_refl Ht).
  destruct Hn as [-> | ->]; reflexivity.
Qed.

Lemma occurrences_lstrip (c : ascii) (s : string) :
  is_space c = false -> occurrences c (lstrip s) = occurrences c s.
Proof.
  intros Hc. induction s as [|a s IH]; simpl; [reflexivity|].
  destruct (is_space a) eqn:Ea; [|reflexivity].
  rewrite IH. destruct (Ascii.eqb c a) eqn:E; [|reflexivity].
  apply Ascii.eqb_eq in E. subst a. congruence.
Qed.

Lemma occurrences_rstrip (c : ascii) (s : string) :
  is_space c = false -> occurrences c (rstrip s) = occurrences c s.
Proof.
  intros Hc. induction s as [|a s IH]; simpl; [reflexivity|].
  destruct (rstrip s) as [|b t] eqn:Er.
  - rewrite <- IH. simpl. destruct (is_space a) eqn:Ea; simpl.
    + destruct (Ascii.eqb c a) eqn:E; [|reflexivity].
      apply Ascii.eqb_eq in E. subst a. congruence.
    + reflexivity.
  - rewrite <- IH. reflexivity.
Qed.

Lemma occurrences_strip (c : ascii) (s : string) :
  is_space c = false -> occurrences c (strip s) = occurrences c s.
Proof.
  intros Hc. unfold strip.
  now rewrite occurrences_rstrip, occurrences_lstrip.
Qed.

Lemma check_recipients_ok (to_addresses : list string) :
  check_recipients (map JStr to_addresses) = Ok tt <->
  Forall (fun email => email_match (strip email) = true) to_addresses.
Proof.
  induction to_addresses as [|email rest IH]; simpl.
  - split; [constructor | reflexivity].
  - destruct (email_match (strip email)) eqn:E.
    + rewrite IH. split.
      * now constructor.
      * intros H. now inversion H.
    + split; [discriminate|]. intros H. inversion H; congruence.
Qed.

(** With the three values found, the validation is the three checks in
    turn. *)
Lemma _validate_config_values (config from_address : json)
  (to_addresses : list string) (port : json) :
  smtp_values config from_address to_addresses port ->
  _validate_config config =
    match check_from from_address with
    | Raise e => Raise e
    | Ok _ =>
        match check_recipients (map JStr to_addresses) with
        | Raise e => Raise e
        | Ok _ => check_port port
        end
    end.
Proof.
  intros (Hf & Ht & Hp). unfold _validate_config.
  rewrite Hf, Ht, Hp. reflexivity.
Qed.

Lemma _validate_config_ok (config from_address : json)
  (to_addresses : list string) (port : json) :
  smtp_values config from_address to_addresses port ->
  _validate_config config = Ok tt ->
  (exists sender, from_address = JStr sender /\ email_match sender = true) /\
  Forall (fun email => email_match (strip email) = true) to_addresses.
Proof.
  intros Hv H. rewrite (_validate_config_values _ _ _ _ Hv) in H.
  unfold check_from, pattern_match in H.
  destruct from_address as [| | | |sender| |]; try discriminate.
  destruct (email_match sender) eqn:Ef; [|discriminate].
  split; [now exists sender|].
  apply check_recipients_ok.
  destruct (check_recipients (map JStr to_addresses)) as [[]|e];
    [reflexivity | discriminate].
Qed.

(** X11. A configuration that passes validation has a [str] for a sender,
    with exactly one [@] in it, and exactly one [@] in every recipient, as
    written (the whitespace that [strip] removes holds none). *)
Theorem validated_addresses_have_one_at (config from_address : json)
  (to_addresses : list string) (port : json) :
  smtp_values config from_address to_addresses port ->
  Forall (fun email => is_ascii email = true) to_addresses ->
  _validate_config config = Ok tt ->
  (exists sender,
      from_address = JStr sender /\ occurrences "@" sender = 1%nat) /\
  Forall (fun email => occurrences "@" email = 1%nat) to_addresses.
Proof.
  intros Hv _ H.
  destruct (_validate_config_ok _ _ _ _ Hv H) as ((sender & -> & Hf) & Ht).
  split; [exists sender; split;
          [reflexivity | now apply email_match_one_at]|].
  clear Hv H.
  induction Ht as [|email rest He Hr IH]; constructor; [|exact IH].
  rewrite <- (occurrences_strip "@" email eq_refl).
  now apply email_match_one_at.
Qed.

Lemma lstrip_spaces (v : string) :
  all_chars is_space v = true -> lstrip v = "".
Proof.
  induction v as [|c v IH]; simpl; [reflexivity|].
  intros H. apply andb_true_iff in H as [Hc Hv]. rewrite Hc. now apply IH.
Qed.

Lemma rstrip_spaces (v : string) :
  all_chars is_space v = true -> rstrip v = "".
Proof.
  induction v as [|c v IH]; simpl; [reflexivity|].
  intros H. apply andb_true_iff in H as [Hc Hv].
  now rewrite (IH Hv), Hc.
Qed.

Lemma lstrip_app_spaces (u s : string) :
  all_chars is_space u = true -> lstrip (u ++ s) = lstrip s.
Proof.
  induction u as [|c u IH]; simpl; [reflexivity|].
  intros H. apply andb_true_iff in H as [Hc Hu]. rewrite Hc. now apply IH.
Qed.

Lemma rstrip_app_spaces (s v : string) :
  all_chars is_space v = true -> rstrip (s ++ v) = rstrip s.
Proof.
  intros Hv. induction s as [|c s IH]; simpl.
  - now apply rstrip_spaces.
  - now rewrite IH.
Qed.

Lemma strip_app_spaces (s v : string) :
  all_chars is_space v = true -> strip (s ++ v) = strip s.
Proof.
  intros Hv. unfold strip. induction s as [|c s IH]; simpl.
  - now rewrite (lstrip_spaces v Hv).
  - destruct (is_space c); [exact IH|].
    change (String c (s ++ v)) with (String c s ++ v)%string.
    now apply rstrip_app_spaces.
Qed.

Lemma strip_padded (u email v : string) :
  all_chars is_space u = true -> all_chars is_space v = true ->
  strip (u ++ email ++ v) = strip email.
Proof.
  intros Hu Hv. unfold strip. rewrite (lstrip_app_spaces u _ Hu).
  now apply strip_app_spaces.
Qed.

Lemma email_match_no_leading_space (c : ascii) (s : string) :
  is_space c = true -> email_match (String c s) = false.
Proof.
  intros Hc. destruct (email_match (String c s)) eqn:E; [|reflexivity].
  apply email_match_shape in E
    as (local & domain & tld & nl & E & Hne & Hl & _).
  destruct local as [|a local]; [contradiction|].
  simpl in E. injection E as <- _.
  simpl in Hl. apply andb_true_iff in Hl as [Ha _].
  destruct c as [[] [] [] [] [] [] [] []]; discriminate.
Qed.

(** X12. Recipients may be padded with whitespace, the sender may not:
    surrounding a recipient with (ASCII) whitespace, as
    [SMTP_TO=a@x.org, b@x.org] does after the split at the commas, never
    changes the verdict of [_validate_config], while a sender that starts
    with whitespace is always refused. *)
Theorem recipients_may_be_padded (config padded from_address port : json)
  (before after : list string) (u email v sender : string) (c : ascii) :
  is_ascii email = true ->
  all_chars is_space u = true -> all_chars is_space v = true ->
  is_space c = true ->
  smtp_values config from_address (before ++ email :: after) port ->
  smtp_values padded from_address
    (before ++ (u ++ email ++ v)%string :: after) port ->
  _validate_config padded = _validate_config config /\
  (from_address = JStr (String c sender) ->
   _validate_config config = Raise ValueError).
Proof.
  intros _ Hu Hv Hc Hcfg Hpad.
  rewrite (_validate_config_values _ _ _ _ Hcfg).
  rewrite (_validate_config_values _ _ _ _ Hpad).
  split.
  - replace (check_recipients
               (map JStr (before ++ (u ++ email ++ v)%string :: after)))
      with (check_recipients (map JStr (before ++ email :: after)));
      [reflexivity|].
    clear Hcfg Hpad.
    induction before as [|b before IH]; simpl.
    + now rewrite (strip_padded u email v Hu Hv).
    + now rewrite IH.
  - intros ->. unfold check_from, pattern_match.
    now rewrite (email_match_no_leading_space c sender Hc).
Qed.

(** A string that matches the pattern has six characters or more. *)
Lemma email_match_length (s : string) :
  email_match s = true -> (6 <= String.length s)%nat.
Proof.
  intros H. apply email_match_shape in H
    as (local & domain & tld & nl & -> & Hl & _ & Hd & _ & Ht & _).
  assert (Hlen : forall a b : string,
             String.length (a ++ b) = (String.length a + String.length b)%nat)
    by (induction a as [|x a IH]; intros b; simpl;
        [reflexivity | now rewrite IH]).
  rewrite !Hlen. simpl.
  destruct local; [contradiction|]. destruct domain; [contradiction|].
  simpl. lia.
Qed.

Lemma strip_short (c : ascii) :
  (String.length (strip (String c "")) <= 1)%nat.
Proof.
  unfold strip. cbn [lstrip].
  destruct (is_space c) eqn:E; cbn [lstrip rstrip]; rewrite ?E; simpl; lia.
Qed.

(** X17. A [to_addresses] that is one [str] and not a list (as a
    configuration file gives it with [to_addresses: admin@example.com]) is
    visited character by character, and no character is an address: the
    validation passes such a configuration only when the string is empty,
    and then there is no recipient at all. *)
Theorem string_of_recipients_refused (config : json) (s : string) :
  smtp_value config "to_addresses" = Ok (JStr s) ->
  (_validate_config config = Ok tt -> s = "") /\
  (s <> "" -> check_to (JStr s) = Raise ValueError).
Proof.
  intros Ht.
  assert (Hne : s <> "" -> check_to (JStr s) = Raise ValueError).
  { intros Hs. destruct s as [|c s]; [contradiction|].
    unfold check_to, iterate. cbn [characters check_recipients].
    unfold str_strip, pattern_match.
    destruct (email_match (strip (String c ""))) eqn:E; [|reflexivity].
    apply email_match_length in E. pose proof (strip_short c). lia. }
  split; [|exact Hne].
  intros H. destruct s as [|c s]; [reflexivity|].
  unfold _validate_config in H. rewrite Ht in H.
  rewrite Hne in H by discriminate.
  destruct (smtp_value config "from_address") as [f|e]; [|discriminate].
  destruct (check_from f) as [[]|e]; discriminate.
Qed.

(** * The merge of the configuration file *)

Lemma json_dict_ind (P : json -> Prop) :
  (forall v : json,
      (forall items, v = JObj items ->
                     Forall (fun kv => P (snd kv)) items) -> P v) ->
  forall v : json, P v.
Proof.
  intros H. fix IH 1. intros v.
  destruct v as [| | | | |l|items]; try (apply H; intros; discriminate).
  apply H. intros items' E. injection E as <-.
  induction items as [|[k x] items IHi]; constructor.
  - apply IH.
  - apply IHi.
Qed.

Lemma _merge_config_cons (base : list (string * json)) (key : string)
  (value : json) (rest : list (string * json)) :
  _merge_config base ((key, value) :: rest) =
  _merge_config (dict_set key (merged_value (dict_get key base) value) base)
    rest.
Proof.
  unfold _merge_config, merged_value. simpl.
  destruct (dict_get key base) as [[]|]; destruct value; reflexivity.
Qed.

Lemma dict_get_none (k : string) (d : list (string * json)) :
  dict_get k d = None <-> ~ In k (keys d).
Proof.
  induction d as [|[k' v] d IH]; simpl.
  - split; auto.
  - destruct (String.eqb k k') eqn:E.
    + apply String.eqb_eq in E. subst. split; [discriminate|].
      intros N. exfalso. apply N. now left.
    + apply String.eqb_neq in E. rewrite IH. split.
      * intros N [H | H]; [congruence | contradiction].
      * intros N H. apply N. now right.
Qed.

Lemma dict_get_in (k : string) (v : json) (d : list (string * json)) :
  dict_get k d = Some v -> In (k, v) d.
Proof.
  induction d as [|[k' v'] d IH]; simpl; [discriminate|].
  destruct (String.eqb k k') eqn:E.
  - apply String.eqb_eq in E. subst. intros [= ->]. now left.
  - intros H. right. now apply IH.
Qed.

Lemma keys_dict_set_old (k : string) (v : json) (d : list (string * json)) :
  In k (keys d) -> keys (dict_set k v d) = keys d.
Proof.
  induction d as [|[k' v'] d IH]; simpl; [contradiction|].
  destruct (String.eqb k k') eqn:E; [reflexivity|].
  apply String.eqb_neq in E. intros [H | H]; [congruence|].
  simpl. f_equal. now apply IH.
Qed.

Lemma keys_dict_set_new (k : string) (v : json) (d : list (string * json)) :
  ~ In k (keys d) -> keys (dict_set k v d) = keys d ++ [k].
Proof.
  induction d as [|[k' v'] d IH]; simpl; [reflexivity|].
  intros N. destruct (String.eqb k k') eqn:E.
  - apply String.eqb_eq in E. exfalso. apply N. now left.
  - simpl. f_equal. apply IH. intros H. apply N. now right.
Qed.

Lemma _merge_config_keys (override base : list (string * json)) :
  exists added : list string,
    keys (_merge_config base override) = keys base ++ added /\
    forall k, In k added <-> In k (keys override) /\ ~ In k (keys base).
Proof.
  revert base. induction override as [|[k0 v0] rest IH]; intros base.
  - exists []. split; [symmetry; apply app_nil_r|].
    intros k. simpl. tauto.
  - rewrite _merge_config_cons.
    destruct (IH (dict_set k0 (merged_value (dict_get k0 base) v0) base))
      as (added & Hk & Ha).
    destruct (in_dec string_dec k0 (keys base)) as [Hin | Hnew].
    + rewrite (keys_dict_set_old _ _ _ Hin) in Hk, Ha.
      exists added. split; [exact Hk|].
      intros k. rewrite Ha. simpl. split.
      * intros [H N]. split; [now right | exact N].
      * intros [[-> | H] N]; [contradiction | now split].
    + rewrite (keys_dict_set_new _ _ _ Hnew) in Hk, Ha.
      exists (k0 :: added). split; [now rewrite Hk, <- app_assoc|].
      intros k. simpl. rewrite Ha, in_app_iff. simpl. split.
      * intros [<- | [H N]]; [split; [now left | exact Hnew]|].
        split; [now right | tauto].
      * intros [[<- | H] N]; [now left|].
        destruct (string_dec k0 k) as [-> | D]; [now left|].
        right. split; [exact H|]. intros [? | [? | []]]; auto.
Qed.

Lemma _merge_config_lookup (override base : list (string * json))
  (k : string) :
  NoDup (keys override) ->
  dict_get k (_merge_config base override) =
  match dict_get k override with
  | Some value => Some (merged_value (dict_get k base) value)
  | None => dict_get k base
  end.
Proof.
  revert base. induction override as [|[k0 v0] rest IH]; intros base Hnd.
  - reflexivity.
  - rewrite _merge_config_cons. inversion Hnd as [|? ? Hk0 Hrest]; subst.
    rewrite (IH _ Hrest). simpl.
    destruct (String.eqb k k0) eqn:E.
    + apply String.eqb_eq in E. subst k0.
      apply dict_get_none in Hk0. rewrite Hk0.
      apply dict_get_set_same.
    + apply String.eqb_neq in E.
      now rewrite (dict_get_set_other k k0 _ base E).
Qed.

(** X13. What [_merge_config] leaves under each key. A key the file does
    not mention keeps its default. A key the file gives holds the value of
    the file, except that where default and file both hold a dict, it holds
    the merge of the two; so a scalar in the file replaces a whole section
    of defaults. *)
Theorem merge_lookup (base override : list (string * json)) (k : string) :
  NoDup (keys override) ->
  dict_get k (_merge_config base override) =
  match dict_get k override, dict_get k base with
  | None, old => old
  | Some (JObj items), Some (JObj sub) =>
      Some (JObj (_merge_config sub items))
  | Some value, _ => Some value
  end.
Proof.
  intros Hnd. rewrite (_merge_config_lookup override base k Hnd).
  unfold merged_value.
  destruct (dict_get k override) as [[]|]; try reflexivity;
    destruct (dict_get k base) as [[]|]; reflexivity.
Qed.

Lemma keys_dict_set_nodup (k : string) (v : json)
  (d : list (string * json)) :
  NoDup (keys d) -> NoDup (keys (dict_set k v d)).
Proof.
  intros H. destruct (in_dec string_dec k (keys d)) as [Hin | Hnew].
  - now rewrite keys_dict_set_old.
  - rewrite keys_dict_set_new by assumption.
    apply NoDup_app; [exact H | repeat constructor; auto |].
    intros x Hx [<- | []]. contradiction.
Qed.

Lemma _merge_config_nodup (override base : list (string * json)) :
  NoDup (keys base) -> NoDup (keys (_merge_config base override)).
Proof.
  revert base. induction override as [|[k0 v0] rest IH]; intros base H.
  - exact H.
  - rewrite _merge_config_cons. apply IH. now apply keys_dict_set_nodup.
Qed.

(** X14. [_merge_config] never drops or moves a default: the keys of the
    result are those of [base], in their order, followed by the keys that
    only the file has; and no key appears twice in the result when none
    does in [base]. *)
Theorem merge_keeps_defaults (base override : list (string * json)) :
  (exists added : list string,
      keys (_merge_config base override) = keys base ++ added /\
      forall k, In k added <-> In k (keys override) /\ ~ In k (keys base)) /\
  (NoDup (keys base) -> NoDup (keys (_merge_config base override))).
Proof.
  split.
  - exact (_merge_config_keys override base).
  - exact (_merge_config_nodup override base).
Qed.

Lemma well_keyed_dict (items : list (string * json)) :
  well_keyed (JObj items) <->
  NoDup (keys items) /\ Forall (fun kv => well_keyed (snd kv)) items.
Proof.
  simpl. unfold keys.
  assert (H : (fix all (items : list (string * json)) : Prop :=
                 match items with
                 | [] => True
                 | (_, value) :: rest => well_keyed value /\ all rest
                 end) items <->
              Forall (fun kv => well_keyed (snd kv)) items).
  { induction items as [|[k v] items IH].
    - split; [constructor | trivial].
    - rewrite IH. split.
      + intros [Hv Hr]. now constructor.
      + intros Hf. inversion Hf; subst. now split. }
  now rewrite H.
Qed.

Lemma well_keyed_lookup (d : list (string * json)) (k : string) (v : json) :
  well_keyed (JObj d) -> dict_get k d = Some v -> well_keyed v.
Proof.
  intros H E. apply well_keyed_dict in H as [_ H].
  apply dict_get_in in E.
  rewrite Forall_forall in H. exact (H _ E).
Qed.

Lemma dict_ext (d1 d2 : list (string * json)) :
  NoDup (keys d1) -> keys d1 = keys d2 ->
  (forall k, dict_get k d1 = dict_get k d2) -> d1 = d2.
Proof.
  revert d2. induction d1 as [|[k v] d1 IH]; intros [|[k' v'] d2] Hnd Hk Hg;
    try discriminate; [reflexivity|].
  simpl in Hk. injection Hk as <- Hk.
  inversion Hnd as [|? ? Hnotin Hnd']; subst.
  pose proof (Hg k) as Hgk. simpl in Hgk. rewrite String.eqb_refl in Hgk.
  injection Hgk as <-. f_equal.
  apply IH; [exact Hnd' | exact Hk |].
  intros k0. specialize (Hg k0). simpl in Hg.
  destruct (String.eqb k0 k) eqn:E; [|exact Hg].
  apply String.eqb_eq in E. subst k0.
  pose proof Hnotin as Hnotin2. rewrite Hk in Hnotin2.
  apply dict_get_none in Hnotin. apply dict_get_none in Hnotin2.
  now rewrite Hnotin, Hnotin2.
Qed.

Lemma _merge_config_keys_known (override base : list (string * json)) :
  (forall k, In k (keys override) -> In k (keys base)) ->
  keys (_merge_config base override) = keys base.
Proof.
  intros Hsub.
  destruct (_merge_config_keys override base) as (added & Hk & Ha).
  destruct added as [|k added]; [now rewrite Hk, app_nil_r|].
  exfalso. destruct (proj1 (Ha k) (or_introl eq_refl)) as [Hin N].
  exact (N (Hsub k Hin)).
Qed.

Lemma _merge_config_keys_in (override base : list (string * json))
  (k : string) :
  In k (keys override) -> In k (keys (_merge_config base override)).
Proof.
  intros Hin.
  destruct (_merge_config_keys override base) as (added & Hk & Ha).
  rewrite Hk, in_app_iff.
  destruct (in_dec string_dec k (keys base)) as [H | H]; [now left|].
  right. apply Ha. now split.
Qed.

Lemma _merge_config_again (override : json) :
  forall items : list (string * json),
    override = JObj items -> well_keyed override ->
    (forall base, well_keyed (JObj base) ->
                  _merge_config (_merge_config base items) items =
                  _merge_config base items) /\
    _merge_config items items = items.
Proof.
  induction override as [override IH] using json_dict_ind.
  intros items -> Hwk. specialize (IH items eq_refl).
  pose proof (proj1 (well_keyed_dict items) Hwk) as [Hnd Hvals].
  rewrite Forall_forall in IH.
  split.
  - intros base Hbase.
    pose proof (proj1 (well_keyed_dict base) Hbase) as [Hndb _].
    apply dict_ext.
    + apply _merge_config_nodup. now apply _merge_config_nodup.
    + apply _merge_config_keys_known. intros k.
      apply _merge_config_keys_in.
    + intros k. rewrite (_merge_config_lookup items _ k Hnd).
      destruct (dict_get k items) as [value|] eqn:E; [|reflexivity].
      rewrite (_merge_config_lookup items base k Hnd), E.
      f_equal.
      pose proof (IH _ (dict_get_in _ _ _ E)) as IHv. simpl in IHv.
      pose proof (well_keyed_lookup items k value Hwk E) as Hv.
      destruct value as [| | | | |l|sub'];
        try (destruct (dict_get k base) as [[]|]; reflexivity).
      destruct (IHv sub' eq_refl Hv) as [IH1 IH2].
      destruct (dict_get k base) as [old|] eqn:Eb;
        [|unfold merged_value; now rewrite IH2].
      pose proof (well_keyed_lookup base k old Hbase Eb) as Hold.
      destruct old as [| | | | |l|sub]; unfold merged_value;
        try (now rewrite IH2).
      now rewrite (IH1 sub Hold).
  - apply dict_ext.
    + now apply _merge_config_nodup.
    + now apply _merge_config_keys_known.
    + intros k. rewrite (_merge_config_lookup items items k Hnd).
      destruct (dict_get k items) as [value|] eqn:E; [|reflexivity].
      f_equal.
      pose proof (IH _ (dict_get_in _ _ _ E)) as IHv. simpl in IHv.
      pose proof (well_keyed_lookup items k value Hwk E) as Hv.
      destruct value as [| | | | |l|sub']; try reflexivity.
      destruct (IHv sub' eq_refl Hv) as [_ IH2].
      unfold merged_value. now rewrite IH2.
Qed.

(** X15. Merging the same file twice changes nothing more, and merging a
    dict into itself leaves it as it is: [_merge_config] is idempotent on
    dicts (no key twice, at any depth). *)
Theorem merge_is_idempotent (base override : list (string * json)) :
  well_keyed (JObj base) -> well_keyed (JObj override) ->
  _merge_config (_merge_config base override) override =
  _merge_config base override /\
  _merge_config override override = override.
Proof.
  intros Hb Ho.
  destruct (_merge_config_again (JObj override) override eq_refl Ho)
    as [H1 H2].
  split; [now apply H1 | exact H2].
Qed.

(** * The recipients of [SMTP_TO] *)

Lemma split_length (sep : ascii) (s : string) :
  length (split sep s) = S (occurrences sep s).
Proof.
  induction s as [|c s IH]; simpl; [reflexivity|].
  rewrite (Ascii.eqb_sym sep c).
  destruct (Ascii.eqb c sep); simpl; [now rewrite IH|].
  destruct (split sep s); simpl in *; [discriminate | exact IH].
Qed.

Lemma split_occurrences (sep c : ascii) (s : string) :
  c <> sep ->
  list_sum (map (occurrences c) (split sep s)) = occurrences c s.
Proof.
  intros N. induction s as [|a s IH]; simpl; [reflexivity|].
  destruct (Ascii.eqb a sep) eqn:E.
  - apply Ascii.eqb_eq in E. subst a.
    apply Ascii.eqb_neq in N. rewrite N. simpl. exact IH.
  - pose proof (split_length sep s) as Hl.
    destruct (split sep s) as [|piece rest]; [discriminate|].
    simpl in *. lia.
Qed.

Lemma list_sum_ones (A : Type) (f : A -> nat) (l : list A) :
  Forall (fun x => f x = 1%nat) l -> list_sum (map f l) = length l.
Proof.
  induction 1 as [|x l Hx Hl IH]; simpl; [reflexivity|]. now rewrite Hx, IH.
Qed.

(** X16. A value of [SMTP_TO] passes validation only with one address in
    every comma-separated piece: it then holds exactly one [@] more than it
    holds commas. So an empty value, a doubled comma or a trailing comma is
    refused, and the list of recipients is never empty. *)
Theorem smtp_to_one_address_per_piece (config from_address port : json)
  (smtp_to : string) :
  is_ascii smtp_to = true ->
  smtp_values config from_address (split "," smtp_to) port ->
  _validate_config config = Ok tt ->
  length (split "," smtp_to) = S (occurrences "," smtp_to) /\
  occurrences "@" smtp_to = S (occurrences "," smtp_to).
Proof.
  intros _ Hv H. split; [apply split_length|].
  destruct (_validate_config_ok _ _ _ _ Hv H) as (_ & Ht).
  rewrite <- (split_occurrences "," "@" smtp_to) by discriminate.
  rewrite <- split_length. apply list_sum_ones.
  clear Hv H.
  induction Ht as [|email rest He Hr IH]; constructor; [|exact IH].
  rewrite <- (occurrences_strip "@" email eq_refl).
  now apply email_match_one_at.
Qed.

(** * Concrete runs *)

(** C1: the claim fails on the code. The first cycle of a fresh monitor
    whose mail server cannot be reached leaves a ledger with status down and
    no alert time; on that ledger a down observation is Suppressed, not
    RaiseFailure. *)
Lemma missing_alert_time_not_raised :
  sm_state (snd (run_check default_config mail_outage)) =
    dict_of_ledger outage_unreported /\
  fst (decide default_config false mail_back) = Ok Suppressed /\
  fst (decide default_config false mail_back) <> Ok RaiseFailure.
Proof.
  vm_compute. split; [reflexivity|]. split; [reflexivity | discriminate].
Qed.

Lemma missing_alert_time_suppressed_run :
  decide default_config false mail_back = (Ok Suppressed, mail_back).
Proof.
  apply (missing_alert_time_suppressed default_config outage_unreported);
    reflexivity.
Defined.

(** C2: the claim fails on the code for a cooldown that no [timedelta]
    holds. With a cooldown of 10^14 seconds, one hour after the alert, the
    comparison is never made: [should_send_alert] raises [OverflowError],
    where the claim has Suppressed. *)
Lemma endless_cooldown_raises :
  clock one_hour_later (ticks one_hour_later) - 0 <=
    timedelta_seconds (alert_cooldown endless_cooldown_config) /\
  fst (decide endless_cooldown_config false one_hour_later) =
    Raise OverflowError /\
  fst (decide endless_cooldown_config false one_hour_later) <> Ok Suppressed.
Proof.
  split; [vm_compute; discriminate|].
  vm_compute. split; [reflexivity | discriminate].
Qed.

(** C2 at the boundary: one hour after the alert, with a cooldown of 3600
    seconds, the down observation is Suppressed. *)
Lemma cooldown_boundary_run :
  fst (decide default_config false one_hour_later) = Ok Suppressed.
Proof.
  apply (proj1 (cooldown_is_strict default_config reported_outage 0
                  one_hour_later eq_refl eq_refl eq_refl)).
  - cbn. lia.
  - reflexivity.
Defined.

(** The specification's scenarios B and C: a cooldown of 3600 seconds, the
    last alert 3700 seconds, then 100 seconds, behind the observation. *)
Example scenario_B :
  fst (decide default_config false
         (host (dict_of_ledger reported_outage) Writable
            (fun _ => 3700 * 1000000) delivering inactive)) = Ok RaiseFailure.
Proof. vm_compute. reflexivity. Qed.

Example scenario_C :
  fst (decide default_config false
         (host (dict_of_ledger reported_outage) Writable
            (fun _ => 100 * 1000000) delivering inactive)) = Ok Suppressed.
Proof. vm_compute. reflexivity. Qed.

(** C3 on a run: a ledger with status down, service back up. *)
Lemma recovery_run :
  fst (decide default_config true back_up) = Ok RaiseRecovery.
Proof.
  rewrite (proj1 (recovery_only_after_down default_config)
             reported_outage back_up eq_refl eq_refl).
  reflexivity.
Defined.

(** The backoff delays of the defaults, 5 and 10 seconds, are lengths that
    the reference host takes. *)
Lemma default_backoff_ok : backoff_ok default_config.
Proof.
  intros i Hi. cbn in *.
  assert (Hi' : i = 0 \/ i = 1) by lia.
  destruct Hi' as [-> | ->]; cbn; lia.
Defined.





(** C6: the claim fails on the code. Loading a store that holds no JSON
    leaves the trace empty, so nothing is logged; the document [{}], which
    has none of the five fields, is returned as it is; and a store in a
    directory that may not be searched makes the load raise. *)
Lemma corrupt_store_not_logged :
  _load_state corrupt_store = (Ok default_state, corrupt_store) /\
  trace (snd (_load_state corrupt_store)) = [] /\
  fst (_load_state empty_object_store) = Ok (JObj []) /\
  fst (_load_state empty_object_store) <> Ok (dict_of_ledger zero_ledger) /\
  fst (_load_state locked_store) = Raise OSError.
Proof.
  vm_compute.
  split; [reflexivity|]. split; [reflexivity|].
  split; [reflexivity|]. split; [discriminate | reflexivity].
Qed.

(** C7: the claim fails on the code. In single-shot mode a store that cannot
    be written ends the process with status 1. *)
Lemma single_shot_save_failure_exits :
  fst (main default_boot false true 0 readonly_world) = Exit 1.
Proof. vm_compute. reflexivity. Qed.

Lemma save_failure_run :
  (exists w' : world,
      main default_boot false true 3 readonly_world =
        (Exit 1, emit (EvStderr (MsgFatal OSError)) w')) /\
  fst (main default_boot false false 3 readonly_world) = Running.
Proof.
  destruct (save_failure_by_mode default_config default_boot zero_ledger
              readonly_world 3 eq_refl eq_refl (or_introl eq_refl) eq_refl)
    as (_ & _ & Hloop & Honce).
  split; [|exact Hloop].
  exact (Honce (or_intror (or_introl default_backoff_ok)) eq_refl).
Defined.


(** C9 on a run: a down cycle after an up one. *)
Lemma update_state_run :
  exists l' : Ledger,
    sm_state (snd (update_state false false gone_down)) =
      dict_of_ledger l' /\
    ledger_inv l' /\
    last_status l' = Some false /\
    consecutive_failures l' = 1.
Proof.
  destruct (update_state_keeps_invariant healthy false false gone_down
              eq_refl
              (conj (Z.le_refl 0) (fun _ => eq_refl)))
    as (l' & Hs & Hinv & Hst & _ & Hdown).
  exists l'. repeat split; try assumption; try apply Hinv.
  now destruct (Hdown eq_refl).
Defined.


(** X1 on a run: two iterations on a state that is [{}]. *)
Lemma unreadable_state_run :
  exists w' : world,
    monitoring_loop default_config 2 blind_world = (Ok tt, w') /\
    sm_state w' = JObj [] /\
    smtp_calls w' = O.
Proof.
  destruct (unreadable_state_blinds_monitor default_config blind_world
              (KeyError "last_status") 2 eq_refl)
    as (_ & w' & E & Hs & _ & Hn & _).
  exists w'. split; [exact E|]. split; [exact Hs | exact Hn].
Defined.


(** X3 on a run: the outage reported an hour ago, still down. *)
Lemma suppressed_cycle_run :
  smtp_calls (snd (run_check default_config one_hour_later)) = O /\
  posts (snd (run_check default_config one_hour_later)) = O.
Proof.
  destruct (suppressed_cycle_is_silent default_config reported_outage
              one_hour_later eq_refl eq_refl)
    as (l' & _ & _ & _ & Hn & Hp & _).
  split; [exact Hn | exact Hp].
Defined.

(** X4 on a run: the first cycle of a fresh monitor delivers its alert. *)
Lemma delivered_alert_run :
  exists (l1 : Ledger) (t : Z),
    sm_state (snd (run_check default_config fresh_world)) =
      dict_of_ledger l1 /\
    last_status l1 = Some false /\
    last_alert_time l1 = Some t.
Proof.
  destruct (delivered_alert_starts_cooldown default_config zero_ledger
              fresh_world eq_refl eq_refl eq_refl eq_refl eq_refl eq_refl)
    as (l1 & t & Hs & Hst & Ht & _).
  exists l1, t. split; [exact Hs|]. split; [exact Hst | exact Ht].
Defined.


(** X6 on a run: the service of a healthy ledger seen down, and seen up
    again after a cycle that recorded it down without an alert. *)
Lemma status_change_run :
  fst (decide default_config false
         (snd (update_state true false gone_down))) = Ok RaiseFailure /\
  fst (decide default_config true
         (snd (update_state false false gone_down))) = Ok RaiseRecovery.
Proof.
  split.
  - rewrite (proj1 (status_change_always_alerts default_config healthy false
                      gone_down (snd (update_state true false gone_down))
                      eq_refl) eq_refl).
    reflexivity.
  - rewrite (proj2 (status_change_always_alerts default_config healthy false
                      gone_down (snd (update_state false false gone_down))
                      eq_refl) eq_refl).
    reflexivity.
Defined.

(** X7 on a run: three iterations of an outage. *)
Lemma failure_count_run :
  exists l' : Ledger,
    sm_state (snd (monitoring_loop default_config 3 fresh_world)) =
      dict_of_ledger l' /\
    consecutive_failures l' = 3.
Proof.
  destruct (failure_count_follows_loop default_config 3 zero_ledger
              fresh_world eq_refl (or_intror default_backoff_ok)
              ltac:(cbn; lia))
    as (l' & Hs & Hdown & _).
  exists l'. split; [exact Hs|]. exact (Hdown (fun _ => eq_refl)).
Defined.

(** The values of a configuration built by [smtp_config]. *)
Lemma smtp_config_values (from_address : string) (to_addresses : list string)
  (port : Z) :
  smtp_values (smtp_config from_address to_addresses port)
    (JStr from_address) to_addresses (JInt port).
Proof. repeat split. Defined.

(** X11 on a run: a recipient with a blank on each side. *)
Lemma one_at_run :
  (exists sender,
      JStr "squid-noreply@example.com" = JStr sender /\
      occurrences "@" sender = 1%nat) /\
  Forall (fun email => occurrences "@" email = 1%nat)
    [" admin@example.com "].
Proof.
  exact (validated_addresses_have_one_at
           (smtp_config "squid-noreply@example.com"
              [" admin@example.com "] 25)
           (JStr "squid-noreply@example.com") [" admin@example.com "]
           (JInt 25) (smtp_config_values _ _ _)
           ltac:(repeat constructor) eq_refl).
Defined.

(** X12 on a run: the second recipient of [a@example.com, b@example.com]. *)
Lemma padded_recipient_run :
  _validate_config
    (smtp_config "squid-noreply@example.com"
       ["a@example.com"; " b@example.com"] 25) =
  _validate_config
    (smtp_config "squid-noreply@example.com"
       ["a@example.com"; "b@example.com"] 25) /\
  _validate_config
    (smtp_config " squid-noreply@example.com"
       ["a@example.com"; "b@example.com"] 25) = Raise ValueError.
Proof.
  split.
  - exact (proj1 (recipients_may_be_padded
                    (smtp_config "squid-noreply@example.com"
                       ["a@example.com"; "b@example.com"] 25)
                    (smtp_config "squid-noreply@example.com"
                       ["a@example.com"; " b@example.com"] 25)
                    (JStr "squid-noreply@example.com") (JInt 25)
                    ["a@example.com"] [] " " "b@example.com" "" "" " "
                    eq_refl eq_refl eq_refl eq_refl
                    (smtp_config_values _ _ _) (smtp_config_values _ _ _))).
  - exact (proj2 (recipients_may_be_padded
                    (smtp_config " squid-noreply@example.com"
                       ["a@example.com"; "b@example.com"] 25)
                    (smtp_config " squid-noreply@example.com"
                       ["a@example.com"; " b@example.com"] 25)
                    (JStr " squid-noreply@example.com") (JInt 25)
                    ["a@example.com"] [] " " "b@example.com" ""
                    "squid-noreply@example.com" " "
                    eq_refl eq_refl eq_refl eq_refl
                    (smtp_config_values _ _ _) (smtp_config_values _ _ _))
             eq_refl).
Defined.

(** X13 on a run: a file that moves the port keeps the server. *)
Lemma merge_lookup_run :
  dict_get "smtp" (_merge_config default_sections file_sections) =
  Some (JObj [ ("server", JStr "smtp.example.com"); ("port", JInt 587) ]).
Proof.
  rewrite (merge_lookup default_sections file_sections "smtp").
  - reflexivity.
  - repeat constructor; cbn; intuition discriminate.
Defined.

(** X15 on a run: the same file merged twice. *)
Lemma merge_twice_run :
  _merge_config (_merge_config default_sections file_sections) file_sections =
  _merge_config default_sections file_sections /\
  _merge_config file_sections file_sections = file_sections.
Proof.
  apply (merge_is_idempotent default_sections file_sections).
  - cbn. repeat split; repeat constructor; cbn; intuition discriminate.
  - cbn. repeat split; repeat constructor; cbn; intuition discriminate.
Defined.

(** X16 on a run: two recipients, one comma. *)
Lemma smtp_to_run :
  length (split "," "a@example.com, b@example.com") = 2%nat /\
  occurrences "@" "a@example.com, b@example.com" = 2%nat.
Proof.
  exact (smtp_to_one_address_per_piece
           (smtp_config "squid-noreply@example.com"
              (split "," "a@example.com, b@example.com") 25)
           (JStr "squid-noreply@example.com") (JInt 25)
           "a@example.com, b@example.com" eq_refl
           (smtp_config_values _ _ _) eq_refl).
Defined.

(** X17 on a run: [to_addresses: admin@example.com] in a configuration
    file. *)
Lemma string_of_recipients_run :
  check_to (JStr "admin@example.com") = Raise ValueError.
Proof.
  apply (proj2 (string_of_recipients_refused
                  (JObj [("smtp",
                          JObj [("to_addresses", JStr "admin@example.com")])])
                  "admin@example.com" eq_refl)).
  discriminate.
Defined.
